(** * The query builder of [src/query/query.js]

    A shallow embedding of the [Query] class: construction, the
    immutable append protocol, the [params] accessor, evaluation by
    reduction over the verbs, and the two serialization protocols.

    JavaScript objects live in a store.  A parameter mapping is a plain
    object reached through a reference ([JRef]), so that two queries
    may share one mapping; a [Query] instance is reached through a
    query reference and its fields are mutable. *)

From stdpp Require Import gmap strings list fin_maps pretty.

(** ** JavaScript values *)

Definition loc := positive.

#[warnings="-register-all"]
Inductive jsval :=
  | JUndefined
  | JNull
  | JBool (b : bool)
  | JNum (n : Z)
  | JStr (s : string)
  | JArr (vs : list jsval)
  | JRef (l : loc).

(** The test performed by [x ? a : b] and [x || y]. *)
Definition truthy (v : jsval) : bool :=
  match v with
  | JUndefined | JNull => false
  | JBool b => b
  | JNum n => negb (n =? 0)%Z
  | JStr s => negb (String.eqb s "")
  | JArr _ | JRef _ => true
  end.

(** The store of plain objects: each one maps property names to values. *)
Abbreviation store := (gmap loc (gmap string jsval)).

(** Own enumerable properties indexed by position, as strings and arrays
    have them. *)
Definition index_props (vs : list jsval) : gmap string jsval :=
  list_to_map (imap (λ (i : nat) v, (pretty i, v)) vs).

(** The properties that an object spread [{...v}] copies: those of the
    referenced object, the indexed elements of an array or of a string,
    and nothing for [undefined], [null] and the other primitives. *)
Definition own_props (σ : store) (v : jsval) : gmap string jsval :=
  match v with
  | JRef l => default ∅ (σ !! l)
  | JArr vs => index_props vs
  | JStr s =>
      index_props ((λ c, JStr (String c EmptyString))
                     <$> String.list_ascii_of_string s)
  | JUndefined | JNull | JBool _ | JNum _ => ∅
  end.

(** [{...a, ...b}]: the properties of [b] win over those of [a]. *)
Definition spread2 (σ : store) (a b : jsval) : gmap string jsval :=
  own_props σ b ∪ own_props σ a.

(** What a reader sees of a value: a reference to a plain object shows
    the object's properties, anything else shows itself. *)
Inductive view :=
  | VVal (v : jsval)
  | VObject (m : gmap string jsval).

Definition observe (σ : store) (v : jsval) : view :=
  match v with
  | JRef l => match σ !! l with Some m => VObject m | None => VVal v end
  | _ => VVal v
  end.

(** A reference is in the store when it has an object there. *)
Definition in_store (σ : store) (v : jsval) : Prop :=
  match v with
  | JRef l => is_Some (σ !! l)
  | _ => True
  end.

#[export] Instance in_store_dec σ v : Decision (in_store σ v).
Proof. destruct v; apply _. Defined.

(** A field or argument that holds no value. *)
Definition absent (v : jsval) : Prop := v = JUndefined ∨ v = JNull.

Definition present (v : jsval) : Prop := ¬ absent v.

(** Thrown values. *)
Inductive exn :=
  | TypeError
  | Failure (msg : string).

Abbreviation result A := (exn + A)%type.

(** The two per-verb serialization methods that [serialize] selects by
    name. *)
Inductive method := toObject_method | toAST_method.

(** ** The collaborators *)

(** [Verb] of './verb': deserializer, evaluation and the two
    serializers.  A catalog is a function from a table name to a table. *)
Class VerbApi (Verb Table : Type) := {
  Verb_from : jsval → result Verb;
  verb_evaluate : Verb → Table → (jsval → result Table) → result Table;
  verb_toObject : Verb → jsval;
  verb_toAST : Verb → jsval
}.

(** [table.params(values)] of the table implementation. *)
Class TableApi (Table : Type) := {
  table_params : Table → store → jsval → Table
}.

(** Modelled from the spec: the constructor of the base class
    [Transformable] of '../table/transformable', which is not part of
    this module.  The spec describes it as the parameter store that
    holds the (optional) mapping of parameter name to value handed to
    the constructor: the argument becomes the field [_params]. *)
Definition Transformable_new (params : jsval) : jsval := params.

Section Query.
Context {Verb Table : Type} `{!VerbApi Verb Table} `{!TableApi Table}.
(** The constant [Query] of './constants', the node type of a query. *)
Variable QueryType : string.

(** *** Instances and the heap *)

Record Query := mkQuery {
  _params : jsval;
  _verbs : list Verb;
  _table : jsval
}.

Definition qref := positive.

Record heap := mkHeap {
  objects : store;
  queries : gmap qref Query
}.

(** [new Query(verbs, params, table)]; [verbs] is [None] for [null]. *)
Definition new_Query (verbs : option (list Verb)) (params table : jsval)
    (h : heap) : qref * heap :=
  let this := fresh (dom (queries h)) in
  let fields := {| _params := Transformable_new params;
                   _verbs := default [] verbs;
                   _table := table |} in
  (this, {| objects := objects h; queries := <[this := fields]> (queries h) |}).

Definition query (tableName : jsval) (h : heap) : qref * heap :=
  new_Query None JNull tableName h.

(** [verbs.map(Verb.from)]: the first failure aborts the map. *)
Fixpoint map_from (verbs : list jsval) : result (list Verb) :=
  match verbs with
  | [] => inr []
  | o :: rest =>
      match Verb_from o with
      | inl e => inl e
      | inr v =>
          match map_from rest with
          | inl e => inl e
          | inr vs => inr (v :: vs)
          end
      end
  end.

(** [Query.from({ verbs, table, params })]: a missing key reads as
    [undefined]; calling [map] on anything but an array is a
    [TypeError]. *)
Definition from (object : gmap string jsval) (h : heap)
    : result qref * heap :=
  let verbs := default JUndefined (object !! "verbs") in
  let table := default JUndefined (object !! "table") in
  let params := default JUndefined (object !! "params") in
  match verbs with
  | JArr vs =>
      match map_from vs with
      | inl e => (inl e, h)
      | inr verbs' =>
          let '(q, h') := new_Query (Some verbs') params table h in
          (inr q, h')
      end
  | _ => (inl TypeError, h)
  end.

Definition queryFrom (object : gmap string jsval) (h : heap)
    : result qref * heap :=
  from object h.

(** *** Accessors *)

Definition length (this : Query) : nat := List.length (_verbs this).

Definition tableName (this : Query) : jsval := _table this.

(** *** [params] *)

Inductive params_result :=
  | PThis (this : qref)
  | PValue (v : jsval).

(** [params(values)]: [arguments] is the list of actual arguments.
    With one or more, the field [_params] of the receiver is set to a
    new object built by the two spreads and the receiver is returned;
    with none, the field is returned. *)
Definition params (this : qref) (arguments : list jsval) (h : heap)
    : option (params_result * heap) :=
  Q ← queries h !! this;
  match arguments with
  | values :: _ =>
      let merged := spread2 (objects h) (_params Q) values in
      let l := fresh (dom (objects h)) in
      let Q' := {| _params := JRef l; _verbs := _verbs Q; _table := _table Q |} in
      Some (PThis this,
            {| objects := <[l := merged]> (objects h);
               queries := <[this := Q']> (queries h) |})
  | [] => Some (PValue (_params Q), h)
  end.

(** *** Serialization *)

Definition invoke (verb : Verb) (m : method) : jsval :=
  match m with
  | toObject_method => verb_toObject verb
  | toAST_method => verb_toAST verb
  end.

(** [{ ...props, verbs: ..., ...(params ? {params} : null),
      ...(table ? {table} : null) }]; later entries win. *)
Definition serialize (query : Query) (m : method)
    (props : gmap string jsval) : gmap string jsval :=
  (if truthy (_table query)
   then {[ "table" := _table query ]} else ∅) ∪
  ((if truthy (_params query)
    then {[ "params" := _params query ]} else ∅) ∪
   <[ "verbs" := JArr ((λ verb, invoke verb m) <$> _verbs query) ]> props).

Definition toObject (this : Query) : gmap string jsval :=
  serialize this toObject_method ∅.

Definition toJSON (this : Query) : gmap string jsval :=
  toObject this.

Definition toAST (this : Query) : gmap string jsval :=
  serialize this toAST_method {[ "type" := JStr QueryType ]}.

(** *** Append and the builder methods *)

Definition append (qb : Query) (verb : Verb) (h : heap) : qref * heap :=
  new_Query (Some (_verbs qb ++ [verb])) (_params qb) (_table qb) h.

(** A builder method installed on the prototype: called on a receiver
    with its arguments. *)
Definition builder := qref → list jsval → heap → option (qref * heap).

(** [function(...args) { return append(this, verb(...args)); }] *)
Definition verb_method (verb : list jsval → Verb) : builder :=
  λ this args h,
    qb ← queries h !! this;
    Some (append qb (verb args) h).

(** [Query.prototype[name] = function(...args) {...}] *)
Definition addQueryVerb (name : string) (verb : list jsval → Verb)
    (prototype : gmap string builder) : gmap string builder :=
  <[ name := verb_method verb ]> prototype.

(** The prototypes that registrations produce. *)
Inductive registered : gmap string builder → Prop :=
  | registered_none : registered ∅
  | registered_add name verb prototype :
      registered prototype →
      registered (addQueryVerb name verb prototype).

(** [this[name](...args)] *)
Definition call_builder (prototype : gmap string builder) (name : string)
    (this : qref) (args : list jsval) (h : heap) : option (qref * heap) :=
  m ← prototype !! name;
  m this args h.

(** *** Evaluation *)

(** The calls that [evaluate] makes to its collaborators, recorded in
    the order in which they are made. *)
Inductive call :=
  | CallCatalog (name : jsval)
  | CallParams (table : Table) (values : jsval)
  | CallEvaluate (verb : Verb) (table : Table).

(** A computation that records its calls and either returns or
    throws; a throw ends it. *)
Definition Eval (A : Type) : Type := list call * result A.

#[export] Instance Eval_ret : MRet Eval := λ A a, ([], inr a).

#[export] Instance Eval_bind : MBind Eval := λ A B k m,
  match m with
  | (log, inl e) => (log, inl e)
  | (log, inr a) => let '(log', r) := k a in (log ++ log', r)
  end.

Definition call_catalog (catalog : jsval → result Table) (name : jsval)
    : Eval Table :=
  ([CallCatalog name], catalog name).

Definition call_params (h : heap) (table : Table) (values : jsval)
    : Eval Table :=
  ([CallParams table values], inr (table_params table (objects h) values)).

Definition call_evaluate (verb : Verb) (table : Table)
    (catalog : jsval → result Table) : Eval Table :=
  ([CallEvaluate verb table], verb_evaluate verb table catalog).

(** [for (const verb of this._verbs) table = verb.evaluate(...)],
    started on the verbs that are still to run. *)
Fixpoint evaluate_loop (h : heap) (this : Query) (verbs : list Verb)
    (table : Table) (catalog : jsval → result Table) : Eval Table :=
  match verbs with
  | [] => mret table
  | verb :: rest =>
      annotated ← call_params h table (_params this);
      table' ← call_evaluate verb annotated catalog;
      evaluate_loop h this rest table' catalog
  end.

(** What the variable [table] of [evaluate] holds: a table, or any
    other value that the caller passed. *)
Inductive operand :=
  | OTable (t : Table)
  | OValue (v : jsval).

(** The test of [table || ...]: a table is an object, hence truthy. *)
Definition operand_truthy (x : operand) : bool :=
  match x with
  | OTable _ => true
  | OValue v => truthy v
  end.

(** An argument counts as supplied when it is a table or a value other
    than [undefined] and [null]. *)
Definition supplied (x : operand) : Prop :=
  match x with
  | OTable _ => True
  | OValue v => present v
  end.

(** A table as the value that [evaluate] returns. *)
Definition as_operand (r : result Table) : result operand :=
  match r with
  | inl e => inl e
  | inr t => inr (OTable t)
  end.

Definition returning (m : Eval Table) : Eval operand :=
  (m.1, as_operand m.2).

(** [evaluate(table, catalog)].  [table || catalog(this._table)] keeps
    a truthy argument and calls the catalog for a falsy one.  The loop
    then runs on a table as [evaluate_loop] has it; on another value,
    with no verbs the value is returned, and otherwise the first step
    fails at [table.params(...)], since no such value has a method
    [params]. *)
Definition evaluate (h : heap) (this : Query) (table : operand)
    (catalog : jsval → result Table) : Eval operand :=
  table' ← (if operand_truthy table
            then mret table
            else returning (call_catalog catalog (_table this)));
  match table' with
  | OTable t => returning (evaluate_loop h this (_verbs this) t catalog)
  | OValue _ =>
      match _verbs this with
      | [] => mret table'
      | _ :: _ => ([], inl TypeError)
      end
  end.

(** The names with which [evaluate] called the catalog. *)
Definition catalog_calls (log : list call) : list jsval :=
  omap (λ c, match c with CallCatalog name => Some name | _ => None end) log.

(** The tables on which [table.params] was called. *)
Definition params_calls (log : list call) : list Table :=
  omap (λ c, match c with CallParams t _ => Some t | _ => None end) log.

(** One step of the fold as the specification words it: attach the
    parameters of the query to the running table, then run the verb
    on it; a failure stays. *)
Definition fold_step (h : heap) (this : Query)
    (catalog : jsval → result Table) (running : result Table)
    (verb : Verb) : result Table :=
  match running with
  | inl e => inl e
  | inr table =>
      verb_evaluate verb (table_params table (objects h) (_params this)) catalog
  end.

(** *** Reading the heap *)

(** Every object that a field of a query refers to is in the store. *)
Definition wf (h : heap) : Prop :=
  map_Forall (λ _ Q, in_store (objects h) (_params Q) ∧
                     in_store (objects h) (_table Q)) (queries h).

#[export] Instance wf_dec h : Decision (wf h).
Proof. unfold wf. apply _. Defined.

(** The serialized form as a reader sees it. *)
Definition observe_object (σ : store) (o : gmap string jsval)
    : gmap string view :=
  observe σ <$> o.

End Query.

Arguments Query : clear implicits.
Arguments heap : clear implicits.
Arguments builder : clear implicits.
Arguments call : clear implicits.
Arguments operand : clear implicits.

(** ** The rest of the module

    The string tag, the handlers that the module installs for the
    verbs it knows when it is loaded, and chains of builder calls. *)

Section Rest.
Context {Verb Table : Type} `{!VerbApi Verb Table} `{!TableApi Table}.
(** The table [Verbs] of './verb': a verb constructor under each verb
    name. *)
Variable Verbs : gmap string (list jsval → Verb).
(** The conversion of a number to a string, which is the runtime's. *)
Variable Number_toString : Z → string.

(** [String(v)], as a template literal applies it: an array joins its
    elements with commas (nothing for [null] and [undefined]), a plain
    object prints as [[object Object]]. *)
Fixpoint to_string (v : jsval) : string :=
  match v with
  | JUndefined => "undefined"
  | JNull => "null"
  | JBool b => if b then "true" else "false"
  | JNum n => Number_toString n
  | JStr s => s
  | JArr vs =>
      (fix join (vs : list jsval) : string :=
         match vs with
         | [] => ""
         | x :: rest =>
             let sx := match x with
                       | JUndefined | JNull => ""
                       | _ => to_string x
                       end in
             match rest with
             | [] => sx
             | _ :: _ => sx +:+ "," +:+ join rest
             end
         end) vs
  | JRef _ => "[object Object]"
  end.

(** [get [Symbol.toStringTag]()].  The receiver is an instance, or the
    prototype itself, which has no field [_verbs] and is [None] here;
    the field of an instance is an array, hence truthy. *)
Definition toStringTag (this : option (Query Verb)) : string :=
  match this with
  | None => "Object"
  | Some Q =>
      let ns := length Q in
      "Query: " +:+ pretty ns +:+ " verbs" +:+
      (if truthy (_table Q)
       then " on '" +:+ to_string (_table Q) +:+ "'"
       else "")
  end.

(** An internal handler, [function(qb, ...args)]: the receiver, the
    query to append to, and the arguments of the verb. *)
Definition handler :=
  qref → qref → list jsval → heap Verb → option (qref * heap Verb).

(** [function(qb, ...args) { return append(qb, verb(...args)); }] *)
Definition internal_method (verb : list jsval → Verb) : handler :=
  λ this qb args h,
    Qb ← queries h !! qb;
    Some (append Qb (verb args) h).

(** [for (const name in Verbs) Query.prototype['__' + name] = ...]:
    the handlers added to those that the prototype has. *)
Definition install_handlers (prototype : gmap string handler)
    : gmap string handler :=
  foldr (λ '(name, verb) proto,
           <[ "__" +:+ name := internal_method verb ]> proto)
        prototype (map_to_list Verbs).

(** [this[name](qb, ...args)] *)
Definition call_handler (prototype : gmap string handler) (name : string)
    (this qb : qref) (args : list jsval) (h : heap Verb)
    : option (qref * heap Verb) :=
  m ← prototype !! name;
  m this qb args h.

(** [this.name1(...args1).name2(...args2)...]: each call is made on
    the query that the call before it returned. *)
Fixpoint call_chain (prototype : gmap string (builder Verb))
    (calls : list (string * list jsval)) (this : qref) (h : heap Verb)
    : option (qref * heap Verb) :=
  match calls with
  | [] => Some (this, h)
  | (name, args) :: rest =>
      r ← call_builder prototype name this args h;
      call_chain prototype rest r.1 r.2
  end.



End Rest.

Arguments handler : clear implicits.

(** ** A small set of collaborators

    Tables of integer rows that carry the parameters attached to them,
    and three verbs: add a row, double every row, and fail. *)
Module Demo.

Record table := mkTable {
  rows : list Z;
  attached : gmap string jsval
}.

Inductive verb :=
  | Push (z : Z)
  | Double
  | Boom.

Definition verb_run (v : verb) (t : table)
    (catalog : jsval → result table) : result table :=
  match v with
  | Push z => inr {| rows := rows t ++ [z]; attached := attached t |}
  | Double => inr {| rows := (λ z, 2 * z)%Z <$> rows t; attached := attached t |}
  | Boom => inl (Failure "boom")
  end.

Definition verb_encode (v : verb) : jsval :=
  match v with
  | Push z => JArr [JStr "push"; JNum z]
  | Double => JArr [JStr "double"]
  | Boom => JArr [JStr "boom"]
  end.

Definition verb_decode (o : jsval) : result verb :=
  match o with
  | JArr [JStr "push"; JNum z] => inr (Push z)
  | JArr [JStr "double"] => inr Double
  | JArr [JStr "boom"] => inr Boom
  | _ => inl (Failure "unknown verb")
  end.

Definition verb_ast (v : verb) : jsval :=
  match v with
  | Push z => JArr [JStr "Verb"; JStr "push"; JNum z]
  | Double => JArr [JStr "Verb"; JStr "double"]
  | Boom => JArr [JStr "Verb"; JStr "boom"]
  end.

#[export] Instance verbs : VerbApi verb table := {|
  Verb_from := verb_decode;
  verb_evaluate := verb_run;
  verb_toObject := verb_encode;
  verb_toAST := verb_ast
|}.

(** The table merges the given parameters over those it carries. *)
#[export] Instance tables : TableApi table := {|
  table_params t σ values :=
    {| rows := rows t; attached := spread2 σ JUndefined values ∪ attached t |}
|}.

Definition empty_heap : heap verb := mkHeap ∅ ∅.

Definition T : table := mkTable [1; 2; 3]%Z ∅.

(** The catalog that knows the table ['t'], which is [T]. *)
Definition catalog (name : jsval) : result table :=
  match name with
  | JStr "t" => inr T
  | _ => inl (Failure "unknown table")
  end.

(** The objects [{a: 1}], [{}], [{b: 2}] and [{a: 2}]. *)
Definition literals : store :=
  {[ 1%positive := {[ "a" := JNum 1 ]};
     2%positive := ∅;
     3%positive := {[ "b" := JNum 2 ]};
     4%positive := {[ "a" := JNum 2 ]} ]}.

(** A query on ['t'] with two verbs and the parameters [{a: 1}]. *)
Definition Q0 : Query verb :=
  mkQuery (JRef 1%positive) [Push 5; Double] (JStr "t").

Definition h0 : heap verb := mkHeap literals {[ 1%positive := Q0 ]}.

(** [query()], in the store of the literals. *)
Definition Q_plain : Query verb := mkQuery JNull [] JUndefined.

Definition h_plain : heap verb :=
  mkHeap literals {[ 1%positive := Q_plain ]}.

(** [query('')] *)
Definition Q_unnamed : Query verb := mkQuery JNull [] (JStr "").

(** [query('t').params({a: 1})]: the query has its own copy of the
    literal. *)
Definition Q_a1 : Query verb := mkQuery (JRef 5%positive) [] (JStr "t").

Definition h_a1 : heap verb :=
  mkHeap (<[ 5%positive := {[ "a" := JNum 1 ]} ]> literals)
         {[ 1%positive := Q_a1 ]}.

(** A prototype with two registered verbs. *)
Definition push (args : list jsval) : verb :=
  match args with
  | JNum z :: _ => Push z
  | _ => Push 0
  end.

Definition prototype : gmap string (builder verb) :=
  addQueryVerb "double" (λ _, Double) (addQueryVerb "push" push ∅).

(** A number conversion: the decimal digits of an integer. *)
Definition number_to_string (n : Z) : string := pretty n.

(** The verbs that the module knows when it is loaded. *)
Definition known : gmap string (list jsval → verb) :=
  {[ "push" := push; "double" := λ _, Double ]}.


(** The two halves of [Q0]. *)
Definition Q0_head : Query verb :=
  mkQuery (JRef 1%positive) [Push 5] (JStr "t").

Definition Q0_tail : Query verb :=
  mkQuery (JRef 1%positive) [Double] JUndefined.

(** A serialized query of which the second verb is not one. *)
Definition bad_object : gmap string jsval :=
  {[ "verbs" := JArr [JArr [JStr "double"]; JStr "x"; JArr [JStr "boom"]] ]}.

End Demo.

(** ** Properties *)

Section Properties.
Context {Verb Table : Type} `{!VerbApi Verb Table} `{!TableApi Table}.
Variable QueryType : string.

Implicit Types (h : heap Verb) (Q : Query Verb) (q : qref) (v : jsval).

(** *** The entries of a serialized query *)

Local Ltac serialize_lookup :=
  unfold serialize;
  repeat match goal with |- context [truthy ?v] => destruct (truthy v) end;
  rewrite ?lookup_union, ?lookup_insert, ?lookup_singleton, ?lookup_empty;
  repeat case_decide; simplify_eq; try done;
  by destruct (_ !! _).

Lemma serialize_verbs Q m props :
  serialize Q m props !! "verbs"
  = Some (JArr ((λ verb, invoke verb m) <$> _verbs Q)).
Proof. serialize_lookup. Qed.

Lemma serialize_params Q m props :
  serialize Q m props !! "params"
  = if truthy (_params Q) then Some (_params Q) else props !! "params".
Proof. serialize_lookup. Qed.

Lemma serialize_table Q m props :
  serialize Q m props !! "table"
  = if truthy (_table Q) then Some (_table Q) else props !! "table".
Proof. serialize_lookup. Qed.

Lemma serialize_other Q m props k :
  k ≠ "verbs" → k ≠ "params" → k ≠ "table" →
  serialize Q m props !! k = props !! k.
Proof. intros Hv Hp Ht. serialize_lookup. Qed.

Lemma absent_falsy v : absent v → truthy v = false.
Proof. by intros [-> | ->]. Qed.

Lemma truthy_present v : truthy v = true → present v.
Proof. intros Ht [-> | ->]; discriminate. Qed.

(** *** Construction *)

Lemma new_Query_fresh verbs ps table h :
  queries h !! (new_Query verbs ps table h).1 = None.
Proof. apply not_elem_of_dom, is_fresh. Qed.

Lemma new_Query_lookup verbs ps table h :
  queries (new_Query verbs ps table h).2 !! (new_Query verbs ps table h).1
  = Some (mkQuery ps (default [] verbs) table).
Proof. apply lookup_insert_eq. Qed.

Lemma new_Query_other verbs ps table h q :
  is_Some (queries h !! q) →
  queries (new_Query verbs ps table h).2 !! q = queries h !! q.
Proof.
  intros Hq. apply lookup_insert_ne. intros Heq.
  apply elem_of_dom in Hq. rewrite <- Heq in Hq. by apply is_fresh in Hq.
Qed.

Lemma new_Query_objects verbs ps table h :
  objects (new_Query verbs ps table h).2 = objects h.
Proof. done. Qed.

Lemma map_from_toObject (vs : list Verb) :
  (∀ verb, Verb_from (verb_toObject verb) = inr verb) →
  map_from (verb_toObject <$> vs) = inr vs.
Proof.
  intros Hinv. induction vs as [|verb vs IH]; [done|].
  cbn. by rewrite Hinv, IH.
Qed.

(** What [toObject] keeps of a field: a falsy field is not written and
    reads back as [undefined]. *)
Lemma serialize_reread Q m :
  serialize (mkQuery
               (default JUndefined (serialize Q m ∅ !! "params"))
               (_verbs Q)
               (default JUndefined (serialize Q m ∅ !! "table"))) m ∅
  = serialize Q m ∅.
Proof.
  rewrite serialize_params, serialize_table. unfold serialize. cbn.
  destruct (truthy (_table Q)) eqn:Ht, (truthy (_params Q)) eqn:Hp;
    cbn; by rewrite ?Ht, ?Hp.
Qed.

(** C1. Round trip: if [Verb.from] inverts every verb's [toObject],
    then [queryFrom(q.toObject())] returns a new query whose
    [toObject()] is the one of [q]: the same verb entries in the same
    order, the same [params] entry and the same [table] entry.  The
    new query holds the verbs of [q], and the parameter mapping and
    the table name of [q] whenever these are written by [toObject()]. *)
Theorem queryFrom_toObject_roundtrip h Q :
  (∀ verb, Verb_from (verb_toObject verb) = inr verb) →
  ∃ q' h' Q',
    queryFrom (toObject Q) h = (inr q', h') ∧
    queries h !! q' = None ∧
    queries h' !! q' = Some Q' ∧
    toObject Q' = toObject Q ∧
    toObject Q' !! "verbs" = Some (JArr (verb_toObject <$> _verbs Q)) ∧
    toObject Q' !! "params" = toObject Q !! "params" ∧
    toObject Q' !! "table" = toObject Q !! "table" ∧
    _verbs Q' = _verbs Q ∧
    (truthy (_params Q) = true → _params Q' = _params Q) ∧
    (truthy (_table Q) = true → _table Q' = _table Q) ∧
    objects h' = objects h ∧
    observe_object (objects h') (toObject Q')
    = observe_object (objects h) (toObject Q).
Proof.
  intros Hinv.
  set (ps := default JUndefined (toObject Q !! "params")).
  set (tn := default JUndefined (toObject Q !! "table")).
  set (r := new_Query (Some (_verbs Q)) ps tn h).
  exists r.1, r.2, (mkQuery ps (_verbs Q) tn).
  assert (Hfrom : queryFrom (toObject Q) h = (inr r.1, r.2)).
  { unfold queryFrom, from. unfold toObject at 1.
    rewrite serialize_verbs. unfold default at 1. cbn [from_option id].
    change (λ verb, invoke verb toObject_method) with verb_toObject.
    rewrite (map_from_toObject _ Hinv). fold ps tn. fold r.
    by destruct r. }
  assert (Hsame : toObject (mkQuery ps (_verbs Q) tn) = toObject Q)
    by apply serialize_reread.
  split_and!; try done.
  - apply new_Query_fresh.
  - apply new_Query_lookup.
  - rewrite Hsame. apply serialize_verbs.
  - by rewrite Hsame.
  - by rewrite Hsame.
  - intros Ht. subst ps. unfold toObject. by rewrite serialize_params, Ht.
  - intros Ht. subst tn. unfold toObject. by rewrite serialize_table, Ht.
  - by rewrite Hsame.
Qed.

(** *** Serialized fields *)

(** C6 (amended). [toObject()] (and [toJSON()], which is the same) has
    the key [params] exactly when the field is truthy, that is when a
    parameter mapping is present, and the key [table] exactly when
    the table name is truthy, that is present and not the empty
    string; an omitted field is not written as [null] or [undefined];
    [query().toObject()] has neither key and
    [query('t').toObject().table] is ['t']. *)
Theorem toObject_field_omission Q :
  toJSON Q = toObject Q ∧
  ("params" ∈ dom (toObject Q) ↔ truthy (_params Q) = true) ∧
  ("table" ∈ dom (toObject Q) ↔ truthy (_table Q) = true) ∧
  (∀ l, _params Q = JRef l → toObject Q !! "params" = Some (JRef l)) ∧
  (absent (_params Q) → toObject Q !! "params" = None) ∧
  (∀ s, _table Q = JStr s →
     toObject Q !! "table" = if decide (s = "") then None else Some (JStr s)) ∧
  (absent (_table Q) → toObject Q !! "table" = None) ∧
  (∀ k v, toObject Q !! k = Some v → present v) ∧
  (∀ h Q0, queries (query JUndefined h).2 !! (query JUndefined h).1 = Some Q0 →
     dom (toObject Q0) = {[ "verbs" ]}) ∧
  (∀ h Q0, queries (query (JStr "t") h).2 !! (query (JStr "t") h).1 = Some Q0 →
     toObject Q0 !! "table" = Some (JStr "t")).
Proof.
  unfold toJSON, toObject. split_and!.
  - done.
  - rewrite elem_of_dom, serialize_params, lookup_empty.
    destruct (truthy (_params Q)); split; try done; by intros [? ?].
  - rewrite elem_of_dom, serialize_table, lookup_empty.
    destruct (truthy (_table Q)); split; try done; by intros [? ?].
  - intros l Hl. by rewrite serialize_params, Hl.
  - intros Ha. by rewrite serialize_params, (absent_falsy _ Ha).
  - intros s Hs. rewrite serialize_table, Hs. cbn.
    case_decide as Hd; [by subst|].
    destruct (String.eqb_spec s ""); [done|]. done.
  - intros Ha. by rewrite serialize_table, (absent_falsy _ Ha).
  - intros k v Hk.
    destruct (decide (k = "verbs")) as [->|Hv].
    { rewrite serialize_verbs in Hk. injection Hk as <-. by intros [?|?]. }
    destruct (decide (k = "params")) as [->|Hp].
    { rewrite serialize_params in Hk.
      destruct (truthy (_params Q)) eqn:Ht; [|done].
      injection Hk as <-. by apply truthy_present. }
    destruct (decide (k = "table")) as [->|Htb].
    { rewrite serialize_table in Hk.
      destruct (truthy (_table Q)) eqn:Ht; [|done].
      injection Hk as <-. by apply truthy_present. }
    by rewrite serialize_other in Hk.
  - intros h Q0. unfold query. rewrite new_Query_lookup.
    intros [= <-]. by vm_compute.
  - intros h Q0. unfold query. rewrite new_Query_lookup.
    intros [= <-]. by rewrite serialize_table.
Qed.

(** C8. [toAST()] has the shape of [toObject()]: its [verbs] entry
    lists the same verbs in the same order, each through [toAST]
    instead of [toObject]; the entries [params] and [table] are
    present in one exactly when in the other, with the same value;
    the only other difference is the added entry [type], the node
    type of a query. *)
Theorem toAST_agrees_with_toObject Q :
  toObject Q !! "verbs" = Some (JArr (verb_toObject <$> _verbs Q)) ∧
  toAST QueryType Q !! "verbs" = Some (JArr (verb_toAST <$> _verbs Q)) ∧
  List.length (verb_toAST <$> _verbs Q)
  = List.length (verb_toObject <$> _verbs Q) ∧
  toAST QueryType Q !! "params" = toObject Q !! "params" ∧
  toAST QueryType Q !! "table" = toObject Q !! "table" ∧
  toAST QueryType Q !! "type" = Some (JStr QueryType) ∧
  toObject Q !! "type" = None ∧
  delete "verbs" (delete "type" (toAST QueryType Q))
  = delete "verbs" (toObject Q).
Proof.
  unfold toAST, toObject. split_and!.
  - by rewrite serialize_verbs.
  - by rewrite serialize_verbs.
  - by rewrite !length_fmap.
  - rewrite !serialize_params. by destruct (truthy _).
  - rewrite !serialize_table. by destruct (truthy _).
  - by rewrite serialize_other.
  - by rewrite serialize_other.
  - apply map_eq. intros k.
    destruct (decide (k = "verbs")) as [->|Hv];
      [by rewrite !lookup_delete_eq|].
    rewrite !(lookup_delete_ne _ "verbs") by done.
    destruct (decide (k = "type")) as [->|Hty].
    { rewrite lookup_delete_eq. by rewrite serialize_other. }
    rewrite lookup_delete_ne by done.
    destruct (decide (k = "params")) as [->|Hp].
    { rewrite !serialize_params. by destruct (truthy _). }
    destruct (decide (k = "table")) as [->|Htb].
    { rewrite !serialize_table. by destruct (truthy _). }
    rewrite !serialize_other by done.
    by rewrite lookup_singleton_ne.
Qed.

(** *** Evaluation *)

Local Ltac eval_unfold :=
  unfold mbind, Eval_bind, mret, Eval_ret, call_catalog, call_params,
    call_evaluate.

Lemma evaluate_loop_cons h Q verb rest t catalog :
  evaluate_loop h Q (verb :: rest) t catalog
  = let t1 := table_params t (objects h) (_params Q) in
    match verb_evaluate verb t1 catalog with
    | inl e => ([CallParams t (_params Q); CallEvaluate verb t1], inl e)
    | inr t2 =>
        (CallParams t (_params Q) :: CallEvaluate verb t1
           :: (evaluate_loop h Q rest t2 catalog).1,
         (evaluate_loop h Q rest t2 catalog).2)
    end.
Proof.
  cbn [evaluate_loop]. eval_unfold. cbn.
  destruct (verb_evaluate verb _ catalog) as [e|t2]; [done|].
  by destruct (evaluate_loop h Q rest t2 catalog).
Qed.

Lemma foldl_fold_step_error h Q catalog e vs :
  foldl (fold_step h Q catalog) (inl e) vs = inl e.
Proof. induction vs as [|verb vs IH]; [done|]. apply IH. Qed.

Lemma evaluate_loop_result h Q vs t catalog :
  (evaluate_loop h Q vs t catalog).2
  = foldl (fold_step h Q catalog) (inr t) vs.
Proof.
  revert t. induction vs as [|verb vs IH]; intros t; [done|].
  rewrite evaluate_loop_cons. cbn [foldl fold_step].
  destruct (verb_evaluate verb _ catalog) as [e|t2]; cbn.
  - by rewrite foldl_fold_step_error.
  - apply IH.
Qed.

Lemma evaluate_loop_catalog_calls h Q vs t catalog :
  catalog_calls (evaluate_loop h Q vs t catalog).1 = [].
Proof.
  revert t. induction vs as [|verb vs IH]; intros t; [done|].
  rewrite evaluate_loop_cons. cbn.
  destruct (verb_evaluate verb _ catalog) as [e|t2]; cbn; [done|apply IH].
Qed.

Lemma evaluate_loop_app h Q vs ws t catalog :
  evaluate_loop h Q (vs ++ ws) t catalog
  = t' ← evaluate_loop h Q vs t catalog; evaluate_loop h Q ws t' catalog.
Proof.
  revert t. induction vs as [|verb vs IH]; intros t.
  - cbn [app evaluate_loop]. eval_unfold.
    by destruct (evaluate_loop h Q ws t catalog).
  - cbn [app]. rewrite !evaluate_loop_cons. cbn.
    destruct (verb_evaluate verb _ catalog) as [e|t2]; [done|].
    rewrite IH. unfold mbind, Eval_bind.
    destruct (evaluate_loop h Q vs t2 catalog) as [log [e|t3]]; [done|].
    cbn. by destruct (evaluate_loop h Q ws t3 catalog).
Qed.

Lemma evaluate_loop_frame h h' Q Q' vs t catalog :
  objects h' = objects h → _params Q' = _params Q →
  evaluate_loop h' Q' vs t catalog = evaluate_loop h Q vs t catalog.
Proof.
  intros Ho Hp. revert t. induction vs as [|verb vs IH]; intros t; [done|].
  rewrite !evaluate_loop_cons, Ho, Hp. cbn.
  destruct (verb_evaluate verb _ catalog) as [e|t2]; [done|]. by rewrite IH.
Qed.

Lemma evaluate_supplied h Q t catalog :
  evaluate h Q (OTable t) catalog
  = returning (evaluate_loop h Q (_verbs Q) t catalog).
Proof.
  unfold evaluate, returning. eval_unfold. cbn.
  by destruct (evaluate_loop h Q (_verbs Q) t catalog) as [log [e|t']].
Qed.

Lemma evaluate_resolved h Q x catalog :
  operand_truthy x = false →
  evaluate h Q x catalog
  = match catalog (_table Q) with
    | inl e => ([CallCatalog (_table Q)], inl e)
    | inr t =>
        (CallCatalog (_table Q) :: (evaluate_loop h Q (_verbs Q) t catalog).1,
         as_operand (evaluate_loop h Q (_verbs Q) t catalog).2)
    end.
Proof.
  intros Hx. unfold evaluate, returning. rewrite Hx. eval_unfold. cbn.
  destruct (catalog (_table Q)) as [e|t]; [done|]. cbn.
  by destruct (evaluate_loop h Q (_verbs Q) t catalog) as [log [e|t']].
Qed.

Lemma evaluate_value h Q v catalog :
  truthy v = true →
  evaluate h Q (OValue v) catalog
  = match _verbs Q with
    | [] => ([], inr (OValue v))
    | _ :: _ => ([], inl TypeError)
    end.
Proof.
  intros Hv. unfold evaluate. cbn [operand_truthy]. rewrite Hv.
  eval_unfold. cbn. by destruct (_verbs Q).
Qed.

Lemma as_operand_fold_error h Q catalog e vs :
  as_operand (foldl (fold_step h Q catalog) (inl e) vs) = inl e.
Proof. by rewrite foldl_fold_step_error. Qed.

(** C3. [evaluate] is a left fold over the verbs in append order:
    each step attaches the parameters of the query to the running
    table with [table.params] and then runs the verb on the result,
    whose output is the input of the next step.  For a query built by
    appending [A] and then [B], the verbs already there run first,
    then [A], then [B]. *)
Theorem evaluate_left_fold h Q t catalog :
  (evaluate h Q (OTable t) catalog).2
  = as_operand (foldl (fold_step h Q catalog) (inr t) (_verbs Q)) ∧
  (∀ x, operand_truthy x = false →
     (evaluate h Q x catalog).2
     = as_operand
         (foldl (fold_step h Q catalog) (catalog (_table Q)) (_verbs Q))) ∧
  (∀ ps tn A B,
     evaluate h (mkQuery ps [A; B] tn) (OTable t) catalog
     = let t1 := table_params t (objects h) ps in
       match verb_evaluate A t1 catalog with
       | inl e => ([CallParams t ps; CallEvaluate A t1], inl e)
       | inr tA =>
           let t2 := table_params tA (objects h) ps in
           ([CallParams t ps; CallEvaluate A t1;
             CallParams tA ps; CallEvaluate B t2],
            as_operand (verb_evaluate B t2 catalog))
       end) ∧
  (∀ A B, ∃ Q1 Q2,
     let r1 := append Q A h in
     let r2 := append Q1 B r1.2 in
     queries r1.2 !! r1.1 = Some Q1 ∧
     queries r2.2 !! r2.1 = Some Q2 ∧
     evaluate h Q (OTable t) catalog
     = returning (evaluate_loop h Q (_verbs Q) t catalog) ∧
     evaluate r2.2 Q2 (OTable t) catalog
     = returning
         (t0 ← evaluate_loop h Q (_verbs Q) t catalog;
          a0 ← call_params h t0 (_params Q);
          tA ← call_evaluate A a0 catalog;
          aA ← call_params h tA (_params Q);
          call_evaluate B aA catalog)).
Proof.
  split_and!.
  - rewrite evaluate_supplied. cbn. by rewrite evaluate_loop_result.
  - intros x Hx. rewrite (evaluate_resolved _ _ _ _ Hx).
    destruct (catalog (_table Q)) as [e|t0]; cbn.
    + by rewrite foldl_fold_step_error.
    + by rewrite evaluate_loop_result.
  - intros ps tn A B. rewrite evaluate_supplied. cbn [_verbs].
    rewrite evaluate_loop_cons. cbn -[evaluate_loop].
    destruct (verb_evaluate A _ catalog) as [e|tA]; [done|].
    rewrite evaluate_loop_cons. unfold returning. cbn.
    by destruct (verb_evaluate B _ catalog).
  - intros A B.
    exists (mkQuery (_params Q) (_verbs Q ++ [A]) (_table Q)),
      (mkQuery (_params Q) ((_verbs Q ++ [A]) ++ [B]) (_table Q)).
    cbn zeta. split_and!.
    + apply new_Query_lookup.
    + apply new_Query_lookup.
    + apply evaluate_supplied.
    + rewrite !evaluate_supplied. cbn [_verbs]. f_equal.
      rewrite <- (assoc_L (++)).
      rewrite (evaluate_loop_frame h _ Q) by done.
      rewrite evaluate_loop_app.
      assert (Hk : ∀ t0,
        evaluate_loop h Q ([A] ++ [B]) t0 catalog
        = (a0 ← call_params h t0 (_params Q);
           tA ← call_evaluate A a0 catalog;
           aA ← call_params h tA (_params Q);
           call_evaluate B aA catalog)).
      { intros t0. cbn [app]. rewrite evaluate_loop_cons. eval_unfold.
        cbn -[evaluate_loop].
        destruct (verb_evaluate A _ catalog) as [e|tA]; [done|].
        rewrite evaluate_loop_cons. cbn.
        by destruct (verb_evaluate B _ catalog). }
      unfold mbind at 1 2. unfold Eval_bind at 1 2.
      destruct (evaluate_loop h Q (_verbs Q) t catalog) as [log [e|t0]];
        [done|].
      by rewrite Hk.
Qed.

(** C7 (amended). [evaluate(table, catalog)] calls the catalog, once
    and with the table name of the query, exactly when the argument is
    falsy: [undefined] or [null], and also a supplied falsy value such
    as [0], [''] or [false].  A truthy argument, which every table is,
    is used as it is and the catalog is not called.  When the catalog
    fails, [evaluate] fails with the same value and has run no verb. *)
Theorem evaluate_catalog_resolution h Q table catalog :
  catalog_calls (evaluate h Q table catalog).1
  = (if operand_truthy table then [] else [_table Q]) ∧
  (if operand_truthy table
   then evaluate h Q table catalog
        = match table with
          | OTable t => returning (evaluate_loop h Q (_verbs Q) t catalog)
          | OValue _ =>
              match _verbs Q with
              | [] => ([], inr table)
              | _ :: _ => ([], inl TypeError)
              end
          end
   else match catalog (_table Q) with
        | inl e =>
            evaluate h Q table catalog = ([CallCatalog (_table Q)], inl e)
        | inr t =>
            evaluate h Q table catalog
            = (CallCatalog (_table Q)
                 :: (evaluate_loop h Q (_verbs Q) t catalog).1,
               as_operand (evaluate_loop h Q (_verbs Q) t catalog).2)
        end) ∧
  (∀ t : Table, operand_truthy (OTable t) = true) ∧
  operand_truthy (@OValue Table JUndefined) = false ∧
  operand_truthy (@OValue Table JNull) = false ∧
  operand_truthy (@OValue Table (JNum 0)) = false ∧
  operand_truthy (@OValue Table (JStr "")) = false ∧
  operand_truthy (@OValue Table (JBool false)) = false.
Proof.
  split_and!; try done.
  - destruct (operand_truthy table) eqn:Ht.
    + destruct table as [t|v].
      * rewrite evaluate_supplied. apply evaluate_loop_catalog_calls.
      * rewrite (evaluate_value _ _ _ _ Ht). by destruct (_verbs Q).
    + rewrite (evaluate_resolved _ _ _ _ Ht).
      destruct (catalog (_table Q)) as [e|t]; [done|].
      cbn. f_equal. apply evaluate_loop_catalog_calls.
  - destruct (operand_truthy table) eqn:Ht.
    + destruct table as [t|v].
      * apply evaluate_supplied.
      * apply (evaluate_value _ _ _ _ Ht).
    + pose proof (evaluate_resolved h Q table catalog Ht) as Hr.
      by destruct (catalog (_table Q)).
Qed.

(** C4 (amended). For a query with no verbs, [evaluate] returns the
    supplied table itself, or the table that the catalog returns for
    the table name, and does not call [table.params]: the returned
    table is not annotated with the parameters.  In particular
    [query('t').evaluate(null, catalog)] returns the table that
    [catalog('t')] returns. *)
Theorem evaluate_empty_pipeline h Q catalog :
  _verbs Q = [] →
  (∀ t, evaluate h Q (OTable t) catalog = ([], inr (OTable t))) ∧
  (∀ x, operand_truthy x = true → evaluate h Q x catalog = ([], inr x)) ∧
  (∀ x T, operand_truthy x = false → catalog (_table Q) = inr T →
     evaluate h Q x catalog = ([CallCatalog (_table Q)], inr (OTable T))) ∧
  (∀ x, params_calls (evaluate h Q x catalog).1 = []) ∧
  (∀ h0 T, catalog (JStr "t") = inr T →
     ∃ Q0, queries (query (JStr "t") h0).2 !! (query (JStr "t") h0).1
           = Some Q0 ∧
           evaluate (query (JStr "t") h0).2 Q0 (OValue JNull) catalog
           = ([CallCatalog (JStr "t")], inr (OTable T))).
Proof.
  intros Hv.
  assert (Htruthy : ∀ x, operand_truthy x = true →
                         evaluate h Q x catalog = ([], inr x)).
  { intros [t|v] Hx.
    - by rewrite evaluate_supplied, Hv.
    - by rewrite (evaluate_value _ _ _ _ Hx), Hv. }
  split_and!.
  - intros t. by apply Htruthy.
  - done.
  - intros x T Hx HT. by rewrite (evaluate_resolved _ _ _ _ Hx), HT, Hv.
  - intros x. destruct (operand_truthy x) eqn:Hx.
    + by rewrite (Htruthy _ Hx).
    + rewrite (evaluate_resolved _ _ _ _ Hx), Hv.
      by destruct (catalog (_table Q)).
  - intros h0 T HT. eexists. split; [apply new_Query_lookup|].
    rewrite evaluate_resolved by done.
    cbn [_table _verbs default from_option]. by rewrite HT.
Qed.

(** *** Append *)

Lemma registered_lookup (prototype : gmap string (builder Verb)) name m :
  registered prototype → prototype !! name = Some m →
  ∃ verb, m = verb_method verb.
Proof.
  induction 1 as [|name' verb prototype Hreg IH]; [done|].
  unfold addQueryVerb. rewrite lookup_insert. case_decide; [|done].
  intros [= <-]. by exists verb.
Qed.

Lemma append_spec h q Q verb :
  queries h !! q = Some Q →
  (append Q verb h).1 ≠ q ∧
  queries h !! (append Q verb h).1 = None ∧
  queries (append Q verb h).2 !! (append Q verb h).1
  = Some (mkQuery (_params Q) (_verbs Q ++ [verb]) (_table Q)) ∧
  queries (append Q verb h).2 !! q = Some Q ∧
  objects (append Q verb h).2 = objects h.
Proof.
  intros Hq. unfold append.
  pose proof (new_Query_fresh (Some (_verbs Q ++ [verb]))
                (_params Q) (_table Q) h) as Hfresh.
  split_and!.
  - intros Heq. rewrite Heq in Hfresh. congruence.
  - done.
  - apply new_Query_lookup.
  - rewrite new_Query_other; [done|by eexists].
  - done.
Qed.

(** C2. Appending a verb, through any registered builder method,
    yields a new instance that holds the verbs of [q] followed by the
    verb, with the parameters and the table name of [q]; [q] itself
    keeps its fields, so that its verb count and its serialized form
    are the same before and after. *)
Theorem append_immutable h q Q (prototype : gmap string (builder Verb))
    name m args :
  registered prototype → prototype !! name = Some m →
  queries h !! q = Some Q →
  (∃ verb, m = verb_method verb ∧
     call_builder prototype name q args h
     = Some (append Q (verb args) h)) ∧
  (∀ verb, ∃ q2 h2,
     append Q verb h = (q2, h2) ∧
     q2 ≠ q ∧ queries h !! q2 = None ∧
     queries h2 !! q2
     = Some (mkQuery (_params Q) (_verbs Q ++ [verb]) (_table Q)) ∧
     objects h2 = objects h ∧
     ∃ Q', queries h2 !! q = Some Q' ∧
           length Q' = length Q ∧
           toObject Q' = toObject Q ∧
           observe_object (objects h2) (toObject Q')
           = observe_object (objects h) (toObject Q)).
Proof.
  intros Hreg Hm Hq. split.
  - destruct (registered_lookup _ _ _ Hreg Hm) as [verb ->].
    exists verb. split; [done|].
    unfold call_builder, builder in *. rewrite Hm. cbn. unfold verb_method.
    by rewrite Hq.
  - intros verb.
    destruct (append_spec h q Q verb Hq) as (Hne & Hnew & Hq2 & Hkeep & Ho).
    exists (append Q verb h).1, (append Q verb h).2.
    split_and!; try done.
    exists Q. by rewrite Ho.
Qed.

(** *** Parameters *)

Lemma wf_refs h :
  wf h ↔ ∀ q Q l, queries h !! q = Some Q →
                  _params Q = JRef l ∨ _table Q = JRef l →
                  is_Some (objects h !! l).
Proof.
  unfold wf, map_Forall. split.
  - intros Hwf q Q l Hq [Hl|Hl]; destruct (Hwf q Q Hq) as [Hp Ht].
    + by rewrite Hl in Hp.
    + by rewrite Hl in Ht.
  - intros Hrefs q Q Hq. split.
    + destruct (_params Q) eqn:E; try done. eapply Hrefs; eauto.
    + destruct (_table Q) eqn:E; try done. eapply Hrefs; eauto.
Qed.

Local Ltac wf_open H :=
  let H' := fresh in
  pose proof (proj1 (wf_refs _) H) as H'; clear H; rename H' into H.

Lemma params_get h q Q :
  queries h !! q = Some Q →
  params q [] h = Some (PValue (_params Q), h).
Proof. intros Hq. unfold params. by rewrite Hq. Qed.

Lemma params_set h q Q values rest :
  queries h !! q = Some Q →
  ∃ l h',
    params q (values :: rest) h = Some (PThis q, h') ∧
    objects h !! l = None ∧
    objects h' = <[l := spread2 (objects h) (_params Q) values]> (objects h) ∧
    queries h' = <[q := mkQuery (JRef l) (_verbs Q) (_table Q)]> (queries h).
Proof.
  intros Hq. eexists (fresh (dom (objects h))), _.
  split_and!.
  - unfold params. rewrite Hq. cbn. reflexivity.
  - apply not_elem_of_dom, is_fresh.
  - done.
  - done.
Qed.

(** A store that grew leaves what was visible as it was. *)
Lemma observe_stable (σ σ' : store) v :
  (∀ l, v = JRef l → σ' !! l = σ !! l) →
  observe σ' v = observe σ v.
Proof. intros Hl. destruct v; try done. cbn. by rewrite (Hl l). Qed.

Lemma toObject_ref Q k l :
  toObject Q !! k = Some (JRef l) →
  _params Q = JRef l ∨ _table Q = JRef l.
Proof.
  unfold toObject. intros Hk.
  destruct (decide (k = "verbs")) as [->|Hv].
  { by rewrite serialize_verbs in Hk. }
  destruct (decide (k = "params")) as [->|Hp].
  { rewrite serialize_params in Hk. destruct (truthy _); [|done].
    left. congruence. }
  destruct (decide (k = "table")) as [->|Ht].
  { rewrite serialize_table in Hk. destruct (truthy _); [|done].
    right. congruence. }
  by rewrite serialize_other in Hk.
Qed.

Lemma toObject_observe_stable (σ σ' : store) Q :
  (∀ l, _params Q = JRef l ∨ _table Q = JRef l → σ' !! l = σ !! l) →
  observe_object σ' (toObject Q) = observe_object σ (toObject Q).
Proof.
  intros Hl. apply map_eq. intros k. unfold observe_object.
  rewrite !lookup_fmap.
  destruct (toObject Q !! k) as [v|] eqn:Hk; [|done]. cbn. f_equal.
  apply observe_stable. intros l ->. apply Hl. by eapply toObject_ref.
Qed.

Lemma insert_fresh_stable (σ : store) l m l' :
  σ !! l = None → is_Some (σ !! l') → <[l := m]> σ !! l' = σ !! l'.
Proof.
  intros Hl [x Hx]. apply lookup_insert_ne. intros ->. congruence.
Qed.

Lemma params_twice h q Q la lb (A B : gmap string jsval) :
  queries h !! q = Some Q →
  objects h !! la = Some A → objects h !! lb = Some B →
  ∃ h1 h2 v,
    params q [JRef la] h = Some (PThis q, h1) ∧
    params q [JRef lb] h1 = Some (PThis q, h2) ∧
    params q [] h2 = Some (PValue v, h2) ∧
    observe (objects h2) v
    = VObject (B ∪ (A ∪ own_props (objects h) (_params Q))).
Proof.
  intros Hq Ha Hb.
  destruct (params_set h q Q (JRef la) [] Hq) as (l1 & h1 & Hp1 & Hl1 & Ho1 & Hq1).
  assert (Hq1' : queries h1 !! q = Some (mkQuery (JRef l1) (_verbs Q) (_table Q)))
    by (rewrite Hq1; apply lookup_insert_eq).
  destruct (params_set h1 q _ (JRef lb) [] Hq1') as (l2 & h2 & Hp2 & Hl2 & Ho2 & Hq2).
  assert (Hq2' : queries h2 !! q = Some (mkQuery (JRef l2) (_verbs Q) (_table Q)))
    by (rewrite Hq2; apply lookup_insert_eq).
  exists h1, h2, (JRef l2). split_and!; try done.
  - by rewrite (params_get h2 q _ Hq2').
  - cbn. rewrite Ho2, lookup_insert_eq. f_equal.
    unfold spread2. cbn [_params own_props].
    rewrite Ho1, lookup_insert_eq.
    rewrite insert_fresh_stable by (done || by eexists).
    rewrite Hb. cbn. unfold spread2. cbn. by rewrite Ha.
Qed.

(** C5. [params(values)] merges: the receiver gets a mapping in which
    every key of [values] has the value given there and every other
    key keeps the value it had, and the receiver itself is returned;
    [params()] returns the current mapping and changes nothing.
    Hence [q.params({a:1}).params({b:2}).params()] is the mapping of
    [q] with [a] set to 1 and [b] set to 2, which is [{a:1, b:2}] for
    a [q] without parameters, and [q.params({a:1}).params({a:2})
    .params()] has [a] set to 2. *)
Theorem params_merge h q Q values rest :
  queries h !! q = Some Q →
  (∃ l h' merged,
     params q (values :: rest) h = Some (PThis q, h') ∧
     objects h !! l = None ∧
     queries h' !! q = Some (mkQuery (JRef l) (_verbs Q) (_table Q)) ∧
     objects h' !! l = Some merged ∧
     (∀ k x, own_props (objects h) values !! k = Some x →
             merged !! k = Some x) ∧
     (∀ k, own_props (objects h) values !! k = None →
           merged !! k = own_props (objects h) (_params Q) !! k) ∧
     (∀ q', q' ≠ q → queries h' !! q' = queries h !! q')) ∧
  params q [] h = Some (PValue (_params Q), h) ∧
  (∀ la lb,
     objects h !! la = Some {[ "a" := JNum 1 ]} →
     objects h !! lb = Some {[ "b" := JNum 2 ]} →
     ∃ h1 h2 v,
       params q [JRef la] h = Some (PThis q, h1) ∧
       params q [JRef lb] h1 = Some (PThis q, h2) ∧
       params q [] h2 = Some (PValue v, h2) ∧
       observe (objects h2) v
       = VObject (<[ "b" := JNum 2 ]>
                    (<[ "a" := JNum 1 ]> (own_props (objects h) (_params Q)))) ∧
       (absent (_params Q) →
        observe (objects h2) v
        = VObject {[ "a" := JNum 1; "b" := JNum 2 ]})) ∧
  (∀ la lb,
     objects h !! la = Some {[ "a" := JNum 1 ]} →
     objects h !! lb = Some {[ "a" := JNum 2 ]} →
     ∃ h1 h2 v,
       params q [JRef la] h = Some (PThis q, h1) ∧
       params q [JRef lb] h1 = Some (PThis q, h2) ∧
       params q [] h2 = Some (PValue v, h2) ∧
       observe (objects h2) v
       = VObject (<[ "a" := JNum 2 ]> (own_props (objects h) (_params Q))) ∧
       (absent (_params Q) →
        observe (objects h2) v = VObject {[ "a" := JNum 2 ]})).
Proof.
  intros Hq. split_and!.
  - destruct (params_set h q Q values rest Hq) as (l & h' & Hp & Hl & Ho & Hq').
    exists l, h', (spread2 (objects h) (_params Q) values).
    split_and!; try done.
    + rewrite Hq'. apply lookup_insert_eq.
    + rewrite Ho. apply lookup_insert_eq.
    + intros k x Hk. unfold spread2. by apply lookup_union_Some_l.
    + intros k Hk. unfold spread2. by apply lookup_union_r.
    + intros q' Hne. rewrite Hq'. by apply lookup_insert_ne.
  - by apply params_get.
  - intros la lb Ha Hb.
    destruct (params_twice h q Q la lb _ _ Hq Ha Hb)
      as (h1 & h2 & v & H1 & H2 & H3 & Hobs).
    exists h1, h2, v. split_and!; try done.
    + by rewrite Hobs, !insert_union_singleton_l.
    + intros Habs. rewrite Hobs. f_equal.
      assert (own_props (objects h) (_params Q) = ∅) as ->
        by (by destruct Habs as [-> | ->]).
      rewrite (right_id_L ∅ (∪)).
      apply map_eq. intros k. by vm_compute.
  - intros la lb Ha Hb.
    destruct (params_twice h q Q la lb _ _ Hq Ha Hb)
      as (h1 & h2 & v & H1 & H2 & H3 & Hobs).
    exists h1, h2, v. split_and!; try done.
    + rewrite Hobs, (assoc_L (∪)).
      rewrite <- insert_union_singleton_l, insert_singleton_eq.
      by rewrite insert_union_singleton_l.
    + intros Habs. rewrite Hobs. f_equal.
      assert (own_props (objects h) (_params Q) = ∅) as ->
        by (by destruct Habs as [-> | ->]).
      rewrite (right_id_L ∅ (∪)).
      by rewrite <- insert_union_singleton_l, insert_singleton_eq.
Qed.

(** C9 (amended). [q.params({})] returns [q] itself and keeps its
    verbs and its table name.  When [q] has a parameter mapping, [q]
    is observably unchanged: the mapping has the same contents and
    [toObject()] reads the same.  When [q] has none, the call gives
    it an empty mapping, and [toObject()] has the same entries as
    before and in addition the entry [params], an empty mapping. *)
Theorem params_empty_merge h q Q le rest :
  wf h → queries h !! q = Some Q → objects h !! le = Some ∅ →
  ∃ h' Q',
    params q (JRef le :: rest) h = Some (PThis q, h') ∧
    queries h' !! q = Some Q' ∧
    _verbs Q' = _verbs Q ∧
    _table Q' = _table Q ∧
    observe (objects h') (_params Q')
    = VObject (own_props (objects h) (_params Q)) ∧
    (∀ l, _params Q = JRef l →
       observe (objects h') (_params Q') = observe (objects h) (_params Q) ∧
       observe_object (objects h') (toObject Q')
       = observe_object (objects h) (toObject Q)) ∧
    (absent (_params Q) →
       toObject Q !! "params" = None ∧
       observe_object (objects h') (toObject Q')
       = <[ "params" := VObject ∅ ]>
           (observe_object (objects h) (toObject Q))).
Proof.
  intros Hwf Hq Hle. wf_open Hwf.
  destruct (params_set h q Q (JRef le) rest Hq) as (l' & h' & Hp & Hl' & Ho & Hq').
  exists h', (mkQuery (JRef l') (_verbs Q) (_table Q)).
  assert (Hmerged : objects h' !! l' = Some (own_props (objects h) (_params Q))).
  { rewrite Ho, lookup_insert_eq. unfold spread2. cbn. rewrite Hle. cbn.
    by rewrite (left_id_L ∅ (∪)). }
  assert (Hold : ∀ l, is_Some (objects h !! l) → objects h' !! l = objects h !! l).
  { intros l Hl. rewrite Ho. by apply insert_fresh_stable. }
  assert (Htable : observe (objects h') (_table Q) = observe (objects h) (_table Q)).
  { apply observe_stable. intros l Ht. apply Hold. eapply Hwf; eauto. }
  split_and!; try done.
  - rewrite Hq'. apply lookup_insert_eq.
  - cbn. by rewrite Hmerged.
  - intros l HQ.
    destruct (Hwf q Q l Hq (or_introl HQ)) as [m Hm].
    assert (Hobs : observe (objects h') (JRef l') = observe (objects h) (_params Q)).
    { cbn. rewrite Hmerged, HQ. cbn. by rewrite Hm. }
    split; [done|].
    apply map_eq. intros k. unfold observe_object, toObject.
    rewrite !lookup_fmap.
    destruct (decide (k = "verbs")) as [->|Hv];
      [by rewrite !serialize_verbs|].
    destruct (decide (k = "params")) as [->|Hpk].
    { rewrite !serialize_params. cbn [_params truthy]. rewrite HQ in *.
      cbn -[observe]. by rewrite Hobs. }
    destruct (decide (k = "table")) as [->|Htk].
    { rewrite !serialize_table. cbn [_table].
      destruct (truthy (_table Q)); [|done]. cbn -[observe].
      by rewrite Htable. }
    by rewrite !serialize_other.
  - intros Habs. unfold toObject. split.
    { by rewrite serialize_params, (absent_falsy _ Habs). }
    apply map_eq. intros k. unfold observe_object.
    destruct (decide (k = "params")) as [->|Hpk].
    { rewrite lookup_insert_eq, lookup_fmap, serialize_params. cbn.
      rewrite Hmerged. by destruct Habs as [-> | ->]. }
    rewrite lookup_insert_ne by done. rewrite !lookup_fmap.
    destruct (decide (k = "verbs")) as [->|Hv];
      [by rewrite !serialize_verbs|].
    destruct (decide (k = "table")) as [->|Htk].
    { rewrite !serialize_table. cbn [_table].
      destruct (truthy (_table Q)); [|done]. cbn -[observe].
      by rewrite Htable. }
    by rewrite !serialize_other.
Qed.

(** C10. The setter gives the receiver a new object and leaves every
    object of the store as it was.  So after [q2] is obtained from
    [q] by an append, and shares the mapping of [q], a call
    [q.params(m)] changes neither the fields of [q2], nor what its
    parameters read, nor what its [toObject()] reads; and a call
    [q2.params(m)] changes none of these for [q]. *)
Theorem params_isolation h q Q verb m rest :
  wf h → queries h !! q = Some Q →
  ∃ q2 h1 Q2,
    append Q verb h = (q2, h1) ∧
    queries h1 !! q2 = Some Q2 ∧
    q2 ≠ q ∧
    _params Q2 = _params Q ∧
    (∃ l h2,
       params q (m :: rest) h1 = Some (PThis q, h2) ∧
       objects h1 !! l = None ∧
       queries h2 !! q = Some (mkQuery (JRef l) (_verbs Q) (_table Q)) ∧
       (∀ l', is_Some (objects h1 !! l') →
              objects h2 !! l' = objects h1 !! l') ∧
       queries h2 !! q2 = Some Q2 ∧
       observe (objects h2) (_params Q2)
       = observe (objects h1) (_params Q2) ∧
       observe_object (objects h2) (toObject Q2)
       = observe_object (objects h1) (toObject Q2)) ∧
    (∃ l h2,
       params q2 (m :: rest) h1 = Some (PThis q2, h2) ∧
       objects h1 !! l = None ∧
       queries h2 !! q2 = Some (mkQuery (JRef l) (_verbs Q2) (_table Q2)) ∧
       (∀ l', is_Some (objects h1 !! l') →
              objects h2 !! l' = objects h1 !! l') ∧
       queries h2 !! q = Some Q ∧
       observe (objects h2) (_params Q)
       = observe (objects h1) (_params Q) ∧
       observe_object (objects h2) (toObject Q)
       = observe_object (objects h1) (toObject Q)).
Proof.
  intros Hwf Hq. wf_open Hwf.
  destruct (append_spec h q Q verb Hq) as (Hne & Hnew & Hq2 & Hkeep & Ho).
  set (q2 := (append Q verb h).1) in *.
  set (h1 := (append Q verb h).2) in *.
  set (Q2 := mkQuery (_params Q) (_verbs Q ++ [verb]) (_table Q)) in *.
  exists q2, h1, Q2.
  assert (Hrefs : ∀ l, _params Q = JRef l ∨ _table Q = JRef l →
                       is_Some (objects h1 !! l)).
  { intros l Hl. rewrite Ho. by eapply Hwf. }
  split_and!; try done.
  - destruct (params_set h1 q Q m rest Hkeep) as (l & h2 & Hp & Hl & Ho2 & Hq').
    assert (Hold : ∀ l', is_Some (objects h1 !! l') →
                         objects h2 !! l' = objects h1 !! l').
    { intros l' Hl'. rewrite Ho2. by apply insert_fresh_stable. }
    exists l, h2. split_and!; try done.
    + rewrite Hq'. apply lookup_insert_eq.
    + rewrite Hq'. by rewrite lookup_insert_ne.
    + apply observe_stable. intros l' HQ. apply Hold, Hrefs. by left.
    + apply toObject_observe_stable. intros l' HQ. by apply Hold, Hrefs.
  - destruct (params_set h1 q2 Q2 m rest Hq2) as (l & h2 & Hp & Hl & Ho2 & Hq').
    assert (Hold : ∀ l', is_Some (objects h1 !! l') →
                         objects h2 !! l' = objects h1 !! l').
    { intros l' Hl'. rewrite Ho2. by apply insert_fresh_stable. }
    exists l, h2. split_and!; try done.
    + rewrite Hq'. apply lookup_insert_eq.
    + rewrite Hq'. by rewrite lookup_insert_ne.
    + apply observe_stable. intros l' HQ. apply Hold, Hrefs. by left.
    + apply toObject_observe_stable. intros l' HQ. by apply Hold, Hrefs.
Qed.

(** *** The heap stays well formed *)

Lemma wf_new_Query verbs ps table h :
  wf h →
  (∀ l, ps = JRef l ∨ table = JRef l → is_Some (objects h !! l)) →
  wf (new_Query verbs ps table h).2.
Proof.
  intros Hwf Hrefs. wf_open Hwf. apply wf_refs.
  intros q Q l. cbn. rewrite lookup_insert.
  case_decide as Hd.
  - intros [= <-]. apply Hrefs.
  - apply Hwf.
Qed.

Lemma wf_append h q Q verb :
  wf h → queries h !! q = Some Q → wf (append Q verb h).2.
Proof.
  intros Hwf Hq. apply wf_new_Query; [done|].
  intros l Hl. by eapply (proj1 (wf_refs h)).
Qed.

Lemma wf_params h q args r h' :
  wf h → params q args h = Some (r, h') → wf h'.
Proof.
  intros Hwf. unfold params.
  destruct (queries h !! q) as [Q|] eqn:Hq; [|done]. cbn.
  destruct args as [|values rest]; [by intros [= <- <-]|].
  wf_open Hwf.
  intros [= <- <-]. apply wf_refs. intros q' Q' l. cbn. rewrite lookup_insert.
  pose proof (is_fresh (dom (objects h))) as Hfresh.
  case_decide as Hd.
  - intros [= <-]. cbn. intros [[= <-]|Ht].
    + by rewrite lookup_insert_eq.
    + rewrite lookup_insert_ne.
      * by eapply Hwf; eauto.
      * intros <-. apply Hfresh, elem_of_dom. by eapply Hwf; eauto.
  - intros HQ' Hl. rewrite lookup_insert_ne.
    + by eapply Hwf.
    + intros <-. apply Hfresh, elem_of_dom. by eapply Hwf.
Qed.

(** *** Reconstruction *)

Lemma map_from_inr os vs :
  map_from os = inr vs ↔ Forall2 (λ o verb, Verb_from o = inr verb) os vs.
Proof.
  revert vs. induction os as [|o os IH]; intros vs; cbn.
  - split; [by intros [= <-]; constructor|by inversion 1].
  - destruct (Verb_from o) as [e|verb] eqn:Ho.
    { split; [done|]. inversion 1; congruence. }
    destruct (map_from os) as [e|vs'] eqn:Hos.
    { split; [done|]. inversion 1 as [|? v ? vs'' Hv Hrest]; subst.
      apply IH in Hrest. congruence. }
    split.
    + intros [= <-]. constructor; [done|]. by apply IH.
    + inversion 1 as [|? v ? vs'' Hv Hrest]; subst.
      apply IH in Hrest. congruence.
Qed.

Lemma map_from_inl os e :
  map_from os = inl e ↔
  ∃ pre o post,
    os = pre ++ o :: post ∧
    Forall (λ x, ∃ verb, Verb_from x = inr verb) pre ∧
    Verb_from o = inl e.
Proof.
  induction os as [|o os IH]; cbn.
  - split; [done|]. intros (pre & o & post & Heq & _). by destruct pre.
  - destruct (Verb_from o) as [e'|verb] eqn:Ho.
    { split.
      + intros [= ->]. exists [], o, os. by split_and!.
      + intros (pre & o' & post & Heq & Hpre & Ho').
        destruct pre as [|x pre]; simplify_eq/=; [congruence|].
        apply Forall_cons in Hpre as [[verb Hx] _]. congruence. }
    destruct (map_from os) as [e'|vs] eqn:Hos.
    + split.
      * intros [= ->]. destruct (proj1 IH eq_refl) as (pre & o' & post & -> & Hpre & Ho').
        exists (o :: pre), o', post. split_and!; [done| |done].
        constructor; [by exists verb|done].
      * intros (pre & o' & post & Heq & Hpre & Ho').
        destruct pre as [|x pre]; simplify_eq/=; [congruence|].
        apply Forall_cons in Hpre as [_ Hpre].
        f_equal. assert (inl e' = (inl e : result (list Verb))) as [= ->]; [|done].
        apply IH. by exists pre, o', post.
    + split; [done|].
      intros (pre & o' & post & Heq & Hpre & Ho').
      destruct pre as [|x pre]; simplify_eq/=; [congruence|].
      apply Forall_cons in Hpre as [_ Hpre].
      assert (inr vs = (inl e : result (list Verb))); [|done].
      apply IH. by exists pre, o', post.
Qed.

(** X1. [queryFrom] fails in two ways only, and creates nothing when
    it fails: with a [TypeError] when the entry [verbs] is missing or
    is not an array, and otherwise with what [Verb.from] throws on the
    first entry that it rejects. *)
Theorem queryFrom_failure object h e h' :
  queryFrom object h = (inl e, h') ↔
  h' = h ∧
  ((e = TypeError ∧ ∀ os, object !! "verbs" ≠ Some (JArr os)) ∨
   ∃ pre o post,
     object !! "verbs" = Some (JArr (pre ++ o :: post)) ∧
     Forall (λ x, ∃ verb, Verb_from x = inr verb) pre ∧
     Verb_from o = inl e).
Proof.
  unfold queryFrom, from.
  destruct (object !! "verbs") as [v|] eqn:Hverbs; cbn;
    [destruct v as [| | | | |os|]|].
  all: try (split;
    [ intros [= <- <-]; split; [done|]; left; by split
    | intros [-> [[-> _]|(pre & o & post & Hos & _)]]; done ]).
  destruct (map_from os) as [e'|vs] eqn:Hos.
  - split.
    + intros [= <- <-]. split; [done|]. right.
      apply map_from_inl in Hos as (pre & o & post & -> & Hpre & Ho).
      by exists pre, o, post.
    + intros [-> [[_ Hno]|(pre & o & post & [= ->] & Hpre & Ho)]].
      { by destruct (Hno os). }
      assert (map_from (pre ++ o :: post) = inl e) as Herr
        by (apply map_from_inl; by exists pre, o, post).
      congruence.
  - split; [done|].
    intros [_ [[_ Hno]|(pre & o & post & [= ->] & Hpre & Ho)]].
    { by destruct (Hno os). }
    assert (map_from (pre ++ o :: post) = inl e) as Herr
      by (apply map_from_inl; by exists pre, o, post).
    congruence.
Qed.

(** X2. When [verbs] is an array of which [Verb.from] accepts every
    entry, [queryFrom] returns a new instance: it holds the decoded
    verbs in the order of the array, and the entries [params] and
    [table] of the object, [undefined] for a missing one; the other
    keys of the object play no part, and the instances and objects
    that exist stay as they are. *)
Theorem queryFrom_success object h os vs :
  object !! "verbs" = Some (JArr os) →
  Forall2 (λ o verb, Verb_from o = inr verb) os vs →
  ∃ q' h' Q',
    queryFrom object h = (inr q', h') ∧
    queries h !! q' = None ∧
    queries h' !! q' = Some Q' ∧
    _verbs Q' = vs ∧
    length Q' = List.length os ∧
    _params Q' = default JUndefined (object !! "params") ∧
    tableName Q' = default JUndefined (object !! "table") ∧
    objects h' = objects h ∧
    (∀ q Q, queries h !! q = Some Q → queries h' !! q = Some Q).
Proof.
  intros Hverbs Hall.
  set (r := new_Query (Some vs) (default JUndefined (object !! "params"))
              (default JUndefined (object !! "table")) h).
  exists r.1, r.2,
    (mkQuery (default JUndefined (object !! "params")) vs
             (default JUndefined (object !! "table"))).
  split_and!; try done.
  - unfold queryFrom, from. rewrite Hverbs. cbn.
    by rewrite (proj2 (map_from_inr os vs) Hall).
  - apply new_Query_fresh.
  - apply new_Query_lookup.
  - unfold length. cbn. symmetry. by eapply Forall2_length.
  - intros q Q Hq. subst r. rewrite new_Query_other; [done|by eexists].
Qed.

(** X3. Decoding and encoding again: when [Verb.from] accepts every
    entry of [verbs] and the verb it returns encodes to that entry,
    [toObject()] of the query that [queryFrom] returns has just the
    entries of the object that [toObject()] writes: the entry [verbs],
    and [params] and [table] when truthy.  Every entry of the result
    is an entry of the object. *)
Theorem queryFrom_then_toObject object h os vs :
  object !! "verbs" = Some (JArr os) →
  Forall2 (λ o verb, Verb_from o = inr verb ∧ verb_toObject verb = o) os vs →
  ∃ q' h' Q',
    queryFrom object h = (inr q', h') ∧
    queries h' !! q' = Some Q' ∧
    toObject Q'
    = filter (λ kv, kv.1 = "verbs" ∨
                    (kv.1 = "params" ∨ kv.1 = "table") ∧ truthy kv.2 = true)
             object ∧
    toObject Q' ⊆ object.
Proof.
  intros Hverbs Hall.
  assert (Hdec : Forall2 (λ o verb, Verb_from o = inr verb) os vs)
    by (eapply Forall2_impl; [done|]; by intros ?? [? _]).
  assert (Henc : verb_toObject <$> vs = os).
  { clear Hdec Hverbs. induction Hall as [|o verb os vs [_ Ho] _ IH]; [done|].
    cbn. by rewrite Ho, IH. }
  set (ps := default JUndefined (object !! "params")).
  set (tn := default JUndefined (object !! "table")).
  set (r := new_Query (Some vs) ps tn h).
  assert (Heq : toObject (mkQuery ps vs tn)
    = filter (λ kv, kv.1 = "verbs" ∨
                    (kv.1 = "params" ∨ kv.1 = "table") ∧ truthy kv.2 = true)
             object).
  { apply map_eq. intros k. apply option_eq. intros v.
    rewrite map_lookup_filter_Some. cbn. unfold toObject.
    destruct (decide (k = "verbs")) as [->|Hv].
    { rewrite serialize_verbs, Hverbs. cbn [_verbs].
      change (λ verb, invoke verb toObject_method) with verb_toObject.
      rewrite Henc. split; [intros Hk; split; [done|by left]|by intros [? _]]. }
    destruct (decide (k = "params")) as [->|Hp].
    { rewrite serialize_params. cbn. subst ps.
      destruct (object !! "params") as [p|]; cbn;
        [destruct (truthy p) eqn:Ht|]; split; try done; try (by intros [? _]).
      - intros [= <-]. split; [done|]. right. split; [by left|done].
      - intros [[= <-] [?|[_ ?]]]; congruence. }
    destruct (decide (k = "table")) as [->|Ht].
    { rewrite serialize_table. cbn. subst tn.
      destruct (object !! "table") as [p|]; cbn;
        [destruct (truthy p) eqn:Htr|]; split; try done; try (by intros [? _]).
      - intros [= <-]. split; [done|]. right. split; [by right|done].
      - intros [[= <-] [?|[_ ?]]]; congruence. }
    rewrite serialize_other by done. split; [done|].
    by intros [_ [?|[[?|?] _]]]. }
  exists r.1, r.2, (mkQuery ps vs tn). split_and!.
  - unfold queryFrom, from. rewrite Hverbs. cbn.
    by rewrite (proj2 (map_from_inr os vs) Hdec).
  - apply new_Query_lookup.
  - done.
  - rewrite Heq. apply map_filter_subseteq.
Qed.

(** *** Builder calls *)

Lemma call_builder_registered (prototype : gmap string (builder Verb))
    name ctor q Q args h :
  prototype !! name = Some (verb_method ctor) →
  queries h !! q = Some Q →
  call_builder prototype name q args h = Some (append Q (ctor args) h).
Proof.
  intros Hm Hq. unfold call_builder, builder in *. rewrite Hm. cbn.
  unfold verb_method. by rewrite Hq.
Qed.

(** X4. A chain of calls of registered builder methods, started on a
    query [q], returns an instance that holds the verbs of [q]
    followed by the verbs of the calls, in the order of the calls,
    with the parameters and the table name of [q]; its verb count is
    the one of [q] plus the number of calls.  The instances that
    existed before, [q] among them, keep their fields. *)
Theorem call_chain_appends (prototype : gmap string (builder Verb))
    calls vs h q Q :
  Forall2 (λ c verb, ∃ ctor, prototype !! c.1 = Some (verb_method ctor) ∧
                             verb = ctor c.2) calls vs →
  queries h !! q = Some Q →
  ∃ q' h' Q',
    call_chain prototype calls q h = Some (q', h') ∧
    queries h' !! q' = Some Q' ∧
    _verbs Q' = _verbs Q ++ vs ∧
    _params Q' = _params Q ∧
    tableName Q' = tableName Q ∧
    length Q' = (length Q + List.length calls)%nat ∧
    objects h' = objects h ∧
    (∀ q0 Q0, queries h !! q0 = Some Q0 → queries h' !! q0 = Some Q0).
Proof.
  intros Hcalls. revert h q Q.
  induction Hcalls as [|[name args] verb calls vs (ctor & Hm & ->) Hrest IH];
    intros h q Q Hq.
  - exists q, h, Q. unfold length. cbn.
    by rewrite (right_id_L [] (++)), Nat.add_0_r.
  - cbn in Hm.
    destruct (append_spec h q Q (ctor args) Hq) as (Hne & Hnew & Hq1 & Hkeep & Ho).
    destruct (IH _ _ _ Hq1)
      as (q' & h' & Q' & Hchain & Hq' & Hv & Hp & Ht & Hlen & Ho' & Hold).
    exists q', h', Q'. split_and!.
    + cbn [call_chain]. rewrite (call_builder_registered _ _ _ _ _ _ _ Hm Hq).
      cbn. exact Hchain.
    + done.
    + rewrite Hv. cbn. by rewrite <- (assoc_L (++)).
    + by rewrite Hp.
    + by rewrite Ht.
    + rewrite Hlen. unfold length. cbn. rewrite length_app. cbn. lia.
    + by rewrite Ho'.
    + intros q0 Q0 Hq0. apply Hold. unfold append.
      rewrite new_Query_other; [done|by eexists].
Qed.

(** X5. Two pipelines that start from one query: appending [A] to [q]
    and then [B] to [q] gives two new instances, different from each
    other and from [q]; one holds the verbs of [q] followed by [A],
    the other the verbs of [q] followed by [B], and [q] keeps its
    own. *)
Theorem append_branches h q Q A B :
  queries h !! q = Some Q →
  ∃ q2 h2 q3 h3,
    append Q A h = (q2, h2) ∧
    queries h2 !! q = Some Q ∧
    append Q B h2 = (q3, h3) ∧
    q2 ≠ q ∧ q3 ≠ q ∧ q2 ≠ q3 ∧
    queries h3 !! q = Some Q ∧
    queries h3 !! q2
    = Some (mkQuery (_params Q) (_verbs Q ++ [A]) (_table Q)) ∧
    queries h3 !! q3
    = Some (mkQuery (_params Q) (_verbs Q ++ [B]) (_table Q)) ∧
    objects h3 = objects h.
Proof.
  intros Hq.
  destruct (append_spec h q Q A Hq) as (Hne & Hnew & Hq2 & Hkeep & Ho).
  destruct (append_spec _ q Q B Hkeep) as (Hne' & Hnew' & Hq3 & Hkeep' & Ho').
  exists (append Q A h).1, (append Q A h).2,
    (append Q B (append Q A h).2).1, (append Q B (append Q A h).2).2.
  split_and!; try done.
  - intros Heq. rewrite <- Heq in Hnew'. congruence.
  - unfold append at 1 2. rewrite new_Query_other; [done|by eexists].
Qed.

(** *** The internal handlers *)

Variable Verbs : gmap string (list jsval → Verb).

Lemma install_handlers_lookup (prototype : gmap string (handler Verb)) name :
  install_handlers Verbs prototype !! ("__" +:+ name)
  = match Verbs !! name with
    | Some verb => Some (internal_method verb)
    | None => prototype !! ("__" +:+ name)
    end.
Proof.
  unfold install_handlers.
  rewrite <- (list_to_map_to_list Verbs) at 2.
  induction (map_to_list Verbs) as [|[name' verb] l IH]; [done|].
  cbn. destruct (decide (name' = name)) as [->|Hne].
  - by rewrite !lookup_insert_eq.
  - rewrite !lookup_insert_ne; [done|done|].
    intros Heq. apply Hne. by apply (inj (String.app "__")).
Qed.

Lemma install_handlers_other (prototype : gmap string (handler Verb)) k :
  (∀ name, is_Some (Verbs !! name) → k ≠ "__" +:+ name) →
  install_handlers Verbs prototype !! k = prototype !! k.
Proof.
  unfold install_handlers. intros Hk.
  assert (Hl : ∀ name verb, (name, verb) ∈ map_to_list Verbs →
                            k ≠ "__" +:+ name).
  { intros name verb Hin. apply Hk. apply elem_of_map_to_list in Hin.
    by eexists. }
  clear Hk. induction (map_to_list Verbs) as [|[name verb] l IH]; [done|].
  cbn. rewrite lookup_insert_ne.
  - apply IH. intros name' verb' Hin. eapply Hl. by right.
  - intros <-. eapply Hl; [by left|done].
Qed.

(** X6. Loading the module installs, for each verb name of [Verbs], a
    handler under that name with [__] in front, and leaves every
    other name of the prototype as it was.  The handler appends the
    verb, built from the arguments, to the query it is given and not
    to its receiver: the result is the one of the builder method that
    [addQueryVerb] installs for the same verb, called on that query. *)
Theorem internal_handler_appends (prototype : gmap string (handler Verb))
    (public : gmap string (builder Verb)) name verb this qb Qb args h :
  Verbs !! name = Some verb →
  queries h !! qb = Some Qb →
  install_handlers Verbs prototype !! ("__" +:+ name)
  = Some (internal_method verb) ∧
  call_handler (install_handlers Verbs prototype) ("__" +:+ name)
    this qb args h
  = Some (append Qb (verb args) h) ∧
  call_handler (install_handlers Verbs prototype) ("__" +:+ name)
    this qb args h
  = call_builder (addQueryVerb name verb public) name qb args h ∧
  (∀ k, (∀ name', is_Some (Verbs !! name') → k ≠ "__" +:+ name') →
        install_handlers Verbs prototype !! k = prototype !! k).
Proof.
  intros Hverb Hqb.
  assert (Hm : install_handlers Verbs prototype !! ("__" +:+ name)
               = Some (internal_method verb))
    by (by rewrite install_handlers_lookup, Hverb).
  assert (Hcall : call_handler (install_handlers Verbs prototype)
                    ("__" +:+ name) this qb args h
                  = Some (append Qb (verb args) h)).
  { unfold call_handler, handler in *. rewrite Hm. cbn.
    unfold internal_method. by rewrite Hqb. }
  split_and!; try done.
  - rewrite Hcall. symmetry. apply call_builder_registered; [|done].
    unfold addQueryVerb. apply lookup_insert_eq.
  - apply install_handlers_other.
Qed.

(** *** The string tag *)

Variable Number_toString : Z → string.

Lemma queryFrom_toObject_fields h Q :
  (∀ verb, Verb_from (verb_toObject verb) = inr verb) →
  queryFrom (toObject Q) h
  = (inr (new_Query (Some (_verbs Q))
            (if truthy (_params Q) then _params Q else JUndefined)
            (if truthy (_table Q) then _table Q else JUndefined) h).1,
     (new_Query (Some (_verbs Q))
        (if truthy (_params Q) then _params Q else JUndefined)
        (if truthy (_table Q) then _table Q else JUndefined) h).2).
Proof.
  intros Hinv. unfold queryFrom, from, toObject.
  rewrite serialize_verbs, serialize_params, serialize_table.
  unfold default at 1. cbn [from_option id].
  change (λ verb, invoke verb toObject_method) with verb_toObject.
  rewrite (map_from_toObject _ Hinv).
  by destruct (truthy (_params Q)), (truthy (_table Q)).
Qed.

(** X7. The string tag of an instance gives its verb count and, when
    the table name is truthy, the name: for a name that is a string,
    [Query: n verbs on 's'], and [Query: n verbs] when the string is
    empty or the name is absent.  The tag is the same for the query
    that [queryFrom] rebuilds from [toObject()], when [Verb.from]
    inverts every verb's [toObject].  It is never the tag [Object]
    of the prototype. *)
Theorem toStringTag_roundtrip h Q :
  (∀ verb, Verb_from (verb_toObject verb) = inr verb) →
  toStringTag Number_toString (Some Q)
  ≠ toStringTag Number_toString (@None (Query Verb)) ∧
  (∀ s, _table Q = JStr s →
     toStringTag Number_toString (Some Q)
     = "Query: " +:+ pretty (List.length (_verbs Q)) +:+ " verbs" +:+
       (if decide (s = "") then "" else " on '" +:+ s +:+ "'")) ∧
  (absent (_table Q) →
     toStringTag Number_toString (Some Q)
     = "Query: " +:+ pretty (List.length (_verbs Q)) +:+ " verbs" +:+ "") ∧
  ∃ q' h' Q',
    queryFrom (toObject Q) h = (inr q', h') ∧
    queries h' !! q' = Some Q' ∧
    toStringTag Number_toString (Some Q')
    = toStringTag Number_toString (Some Q).
Proof.
  intros Hinv. split_and!.
  - discriminate.
  - intros s Hs. unfold toStringTag, length. rewrite Hs. cbn [truthy to_string].
    case_decide as Hd; [by subst|].
    by destruct (String.eqb_spec s "").
  - intros Ha. unfold toStringTag, length. by rewrite (absent_falsy _ Ha).
  - eexists _, _, _. split; [by apply queryFrom_toObject_fields|].
    split; [apply new_Query_lookup|].
    unfold toStringTag, length. cbn [_verbs _table default from_option].
    by destruct (truthy (_table Q)) eqn:Ht; [rewrite Ht|].
Qed.

(** *** More on evaluation *)




(** X10. A pipeline can be run in two parts: when the verbs of [Q] are
    those of [Q1] followed by those of [Q2], and the three queries
    have the same parameters and [Q1] the table name of [Q],
    evaluating [Q] is evaluating [Q1] and then [Q2] on the table that
    [Q1] returns; a failure of [Q1] is the failure of [Q]. *)
Theorem evaluate_split h Q Q1 Q2 table catalog :
  _verbs Q = _verbs Q1 ++ _verbs Q2 →
  _params Q1 = _params Q → _params Q2 = _params Q →
  _table Q1 = _table Q →
  evaluate h Q table catalog
  = (t' ← evaluate h Q1 table catalog; evaluate h Q2 t' catalog).
Proof.
  intros Hvs Hp1 Hp2 Ht.
  assert (Hloop : ∀ t,
    returning (evaluate_loop h Q (_verbs Q) t catalog)
    = (t' ← returning (evaluate_loop h Q1 (_verbs Q1) t catalog);
       evaluate h Q2 t' catalog)).
  { intros t. rewrite Hvs, evaluate_loop_app.
    rewrite (evaluate_loop_frame h h Q Q1) by done.
    unfold mbind, Eval_bind, returning.
    destruct (evaluate_loop h Q (_verbs Q1) t catalog) as [log [e|t1]];
      [done|].
    cbn -[evaluate]. rewrite evaluate_supplied.
    rewrite (evaluate_loop_frame h h Q Q2) by done.
    unfold returning.
    by destruct (evaluate_loop h Q (_verbs Q2) t1 catalog) as [log' [e|t2]]. }
  destruct (operand_truthy table) eqn:Htruthy.
  - destruct table as [t|v].
    + rewrite !evaluate_supplied. apply Hloop.
    + rewrite !(evaluate_value _ _ _ _ Htruthy), Hvs.
      destruct (_verbs Q1) as [|verb1 vs1]; [|done].
      unfold mbind, Eval_bind. cbn -[evaluate].
      rewrite (evaluate_value _ _ _ _ Htruthy).
      by destruct (_verbs Q2).
  - rewrite !(evaluate_resolved _ _ _ _ Htruthy), Ht.
    destruct (catalog (_table Q)) as [e|t]; [done|].
    pose proof (Hloop t) as Hl. unfold returning in Hl.
    unfold mbind, Eval_bind in *.
    destruct (evaluate_loop h Q1 (_verbs Q1) t catalog) as [log [e|t1]];
      cbn -[evaluate] in *.
    + by injection Hl as -> ->.
    + destruct (evaluate h Q2 (OTable t1) catalog) as [log2 r2].
      by injection Hl as -> ->.
Qed.

(** *** More on the parameters *)

Lemma params_set_lookup h q Q values rest :
  queries h !! q = Some Q →
  ∃ l h',
    params q (values :: rest) h = Some (PThis q, h') ∧
    objects h !! l = None ∧
    queries h' !! q = Some (mkQuery (JRef l) (_verbs Q) (_table Q)) ∧
    objects h' !! l = Some (spread2 (objects h) (_params Q) values) ∧
    (∀ l', is_Some (objects h !! l') → objects h' !! l' = objects h !! l').
Proof.
  intros Hq.
  destruct (params_set h q Q values rest Hq) as (l & h' & Hp & Hl & Ho & Hq').
  exists l, h'. split_and!; try done.
  - rewrite Hq'. apply lookup_insert_eq.
  - rewrite Ho. apply lookup_insert_eq.
  - intros l' Hl'. rewrite Ho. by apply insert_fresh_stable.
Qed.

(** X11. Whether [params] sets or gets is decided by the number of
    arguments, not by their value: [q.params(undefined)] and
    [q.params(null)] set.  They return [q] and give it a new mapping
    with the contents of the one it had, an empty mapping when it had
    none; arguments after the first are ignored. *)
Theorem params_set_absent h q Q values rest :
  queries h !! q = Some Q →
  absent values →
  ∃ l h',
    params q (values :: rest) h = Some (PThis q, h') ∧
    params q (values :: rest) h = params q [values] h ∧
    objects h !! l = None ∧
    queries h' !! q = Some (mkQuery (JRef l) (_verbs Q) (_table Q)) ∧
    observe (objects h') (JRef l)
    = VObject (own_props (objects h) (_params Q)) ∧
    (absent (_params Q) → observe (objects h') (JRef l) = VObject ∅).
Proof.
  intros Hq Ha.
  destruct (params_set_lookup h q Q values rest Hq)
    as (l & h' & Hp & Hl & Hq' & Hm & _).
  assert (Hobs : observe (objects h') (JRef l)
                 = VObject (own_props (objects h) (_params Q))).
  { cbn. rewrite Hm. unfold spread2.
    assert (own_props (objects h) values = ∅) as ->
      by (by destruct Ha as [-> | ->]).
    by rewrite (left_id_L ∅ (∪)). }
  exists l, h'. split_and!; try done.
  intros Hp'. rewrite Hobs. by destruct Hp' as [-> | ->].
Qed.

(** X12. What [q.params()] returns is the mapping itself, and a later
    [q.params(m)] does not write into it: what was returned reads the
    same after the call, and [q.params()] then returns another
    value. *)
Theorem params_getter_snapshot h q Q m rest :
  wf h → queries h !! q = Some Q →
  ∃ h' v',
    params q [] h = Some (PValue (_params Q), h) ∧
    params q (m :: rest) h = Some (PThis q, h') ∧
    params q [] h' = Some (PValue v', h') ∧
    observe (objects h') (_params Q) = observe (objects h) (_params Q) ∧
    v' ≠ _params Q.
Proof.
  intros Hwf Hq. wf_open Hwf.
  destruct (params_set_lookup h q Q m rest Hq)
    as (l & h' & Hp & Hl & Hq' & Hm & Hold).
  exists h', (JRef l). split_and!; try done.
  - by apply params_get.
  - by rewrite (params_get h' q _ Hq').
  - apply observe_stable. intros l' HQ. apply Hold. eapply Hwf; eauto.
  - intros Heq. symmetry in Heq.
    destruct (Hwf q Q l Hq (or_introl Heq)) as [x Hx]. congruence.
Qed.

(** X13. Two merges are one merge of the spread of their arguments:
    after [q.params(a).params(b)] the parameters read as after
    [q.params(ab)], where [ab] has the contents of [{...a, ...b}]. *)
Theorem params_two_merges h q Q la lb lab (A B : gmap string jsval) :
  queries h !! q = Some Q →
  objects h !! la = Some A → objects h !! lb = Some B →
  objects h !! lab = Some (B ∪ A) →
  ∃ h1 h2 v h3 v',
    params q [JRef la] h = Some (PThis q, h1) ∧
    params q [JRef lb] h1 = Some (PThis q, h2) ∧
    params q [] h2 = Some (PValue v, h2) ∧
    params q [JRef lab] h = Some (PThis q, h3) ∧
    params q [] h3 = Some (PValue v', h3) ∧
    observe (objects h2) v = observe (objects h3) v' ∧
    observe (objects h2) v
    = VObject (B ∪ A ∪ own_props (objects h) (_params Q)).
Proof.
  intros Hq Ha Hb Hab.
  destruct (params_twice h q Q la lb A B Hq Ha Hb)
    as (h1 & h2 & v & H1 & H2 & H3 & Hobs).
  destruct (params_set_lookup h q Q (JRef lab) [] Hq)
    as (l & h3 & Hp & Hl & Hq' & Hm & _).
  assert (Hobs' : observe (objects h3) (JRef l)
                  = VObject (B ∪ A ∪ own_props (objects h) (_params Q))).
  { cbn. rewrite Hm. unfold spread2. cbn. by rewrite Hab. }
  exists h1, h2, v, h3, (JRef l). split_and!; try done.
  - by rewrite (params_get h3 q _ Hq').
  - by rewrite Hobs, Hobs', (assoc_L (∪)).
  - by rewrite Hobs, (assoc_L (∪)).
Qed.

(** *** More on serialization *)

(** X14. [toObject()] always has the entry [verbs], an array with one
    element for each verb, and has no entries but [verbs], [params]
    and [table]; [toAST()] has these and the entry [type]. *)
Theorem serialized_keys Q :
  (∃ encs, toObject Q !! "verbs" = Some (JArr encs) ∧
           List.length encs = length Q) ∧
  (∃ encs, toAST QueryType Q !! "verbs" = Some (JArr encs) ∧
           List.length encs = length Q) ∧
  dom (toObject Q) ⊆ {[ "verbs"; "params"; "table" ]} ∧
  dom (toAST QueryType Q) = {[ "type" ]} ∪ dom (toObject Q).
Proof.
  unfold toObject, toAST. split_and!.
  - eexists. split; [apply serialize_verbs|]. unfold length.
    by rewrite length_fmap.
  - eexists. split; [apply serialize_verbs|]. unfold length.
    by rewrite length_fmap.
  - intros k [v Hk]%elem_of_dom.
    destruct (decide (k = "verbs")) as [->|Hv]; [set_solver|].
    destruct (decide (k = "params")) as [->|Hp]; [set_solver|].
    destruct (decide (k = "table")) as [->|Ht]; [set_solver|].
    by rewrite serialize_other in Hk.
  - apply set_eq. intros k.
    rewrite elem_of_union, elem_of_singleton, !elem_of_dom.
    destruct (decide (k = "verbs")) as [->|Hv].
    { rewrite !serialize_verbs. split; [by right|by eexists]. }
    destruct (decide (k = "params")) as [->|Hp].
    { rewrite !serialize_params. destruct (truthy _).
      - split; [by right|by eexists].
      - split; [by intros [? ?]|by intros [?|[? ?]]]. }
    destruct (decide (k = "table")) as [->|Ht].
    { rewrite !serialize_table. destruct (truthy _).
      - split; [by right|by eexists].
      - split; [by intros [? ?]|by intros [?|[? ?]]]. }
    rewrite !serialize_other by done.
    destruct (decide (k = "type")) as [->|Hty].
    + rewrite lookup_singleton_eq. split; [by left|by eexists].
    + rewrite lookup_singleton_ne by done. rewrite lookup_empty.
      split; [by intros [? ?]|by intros [?|[? ?]]].
Qed.

Lemma serialize_set_params Q m props l :
  serialize (mkQuery (JRef l) (_verbs Q) (_table Q)) m props
  = <[ "params" := JRef l ]> (serialize Q m props).
Proof.
  apply map_eq. intros k.
  destruct (decide (k = "params")) as [->|Hp].
  { by rewrite lookup_insert_eq, serialize_params. }
  rewrite lookup_insert_ne by done.
  destruct (decide (k = "verbs")) as [->|Hv];
    [by rewrite !serialize_verbs|].
  destruct (decide (k = "table")) as [->|Ht];
    [by rewrite !serialize_table|].
  by rewrite !serialize_other.
Qed.

(** X15. A serialized form and a later [q.params(m)]: the form taken
    before the call reads the same after it, and the forms taken
    after the call are the earlier ones with the entry [params] set
    to the new mapping of [q]. *)
Theorem serialized_before_and_after_params h q Q m rest :
  wf h → queries h !! q = Some Q →
  ∃ l h' Q',
    params q (m :: rest) h = Some (PThis q, h') ∧
    queries h' !! q = Some Q' ∧
    objects h !! l = None ∧
    observe_object (objects h') (toObject Q)
    = observe_object (objects h) (toObject Q) ∧
    toObject Q' = <[ "params" := JRef l ]> (toObject Q) ∧
    toAST QueryType Q' = <[ "params" := JRef l ]> (toAST QueryType Q) ∧
    observe (objects h') (JRef l)
    = VObject (own_props (objects h) m ∪ own_props (objects h) (_params Q)).
Proof.
  intros Hwf Hq. wf_open Hwf.
  destruct (params_set_lookup h q Q m rest Hq)
    as (l & h' & Hp & Hl & Hq' & Hm & Hold).
  exists l, h', (mkQuery (JRef l) (_verbs Q) (_table Q)).
  split_and!; try done.
  - apply toObject_observe_stable. intros l' HQ. apply Hold.
    by eapply Hwf.
  - apply serialize_set_params.
  - apply serialize_set_params.
  - cbn. by rewrite Hm.
Qed.

(** X16. The serialized forms of an appended query are those of the
    query it was appended to, with one more element at the end of
    [verbs]: the encoding of the new verb. *)
Theorem serialized_append h Q verb :
  ∃ Q2,
    queries (append Q verb h).2 !! (append Q verb h).1 = Some Q2 ∧
    toObject Q2
    = <[ "verbs" := JArr ((verb_toObject <$> _verbs Q) ++ [verb_toObject verb]) ]>
        (toObject Q) ∧
    toAST QueryType Q2
    = <[ "verbs" := JArr ((verb_toAST <$> _verbs Q) ++ [verb_toAST verb]) ]>
        (toAST QueryType Q).
Proof.
  exists (mkQuery (_params Q) (_verbs Q ++ [verb]) (_table Q)).
  split; [apply new_Query_lookup|].
  unfold toObject, toAST. split; apply map_eq; intros k.
  all: destruct (decide (k = "verbs")) as [->|Hv];
    [rewrite lookup_insert_eq, serialize_verbs; cbn [_verbs];
     by rewrite fmap_app|].
  all: rewrite lookup_insert_ne by done.
  all: destruct (decide (k = "params")) as [->|Hp];
    [by rewrite !serialize_params|].
  all: destruct (decide (k = "table")) as [->|Ht];
    [by rewrite !serialize_table|].
  all: by rewrite !serialize_other.
Qed.

(** X17. No operation leaves a query with a reference to an object
    that is not in the store: [query], [append], [params] and
    [queryFrom] keep the heap well formed, when the table name or the
    entries they are given are themselves in the store. *)
Theorem wf_preserved h :
  wf h →
  (∀ tn, in_store (objects h) tn → wf (query tn h).2) ∧
  (∀ q Q verb, queries h !! q = Some Q → wf (append Q verb h).2) ∧
  (∀ q args r h', params q args h = Some (r, h') → wf h') ∧
  (∀ object,
     in_store (objects h) (default JUndefined (object !! "params")) →
     in_store (objects h) (default JUndefined (object !! "table")) →
     wf (queryFrom object h).2).
Proof.
  intros Hwf. split_and!.
  - intros tn Htn. apply wf_new_Query; [done|].
    intros l [Hl|Hl]; [done|]. by rewrite Hl in Htn.
  - intros q Q verb Hq. by eapply wf_append.
  - intros q args r h' Hp. by eapply wf_params.
  - intros object Hps Htn. unfold queryFrom, from.
    destruct (default JUndefined (object !! "verbs")); try done.
    destruct (map_from vs) as [e|verbs]; [done|].
    set (r := new_Query _ _ _ h).
    assert (wf r.2) as Hr.
    { apply wf_new_Query; [done|]. intros l [Hl|Hl].
      - by rewrite Hl in Hps.
      - by rewrite Hl in Htn. }
    by destruct r.
Qed.

End Properties.


(** ** The properties on the small set of collaborators *)

Section Instances.
Import Demo.

Lemma Demo_from_inverts (v : verb) : Verb_from (verb_toObject v) = inr v.
Proof. by destruct v. Qed.

Lemma Demo_query_plain :
  query JUndefined (mkHeap literals ∅) = (1%positive, h_plain).
Proof. reflexivity. Qed.

Lemma Demo_query_unnamed :
  query (JStr "") empty_heap
  = (1%positive, mkHeap ∅ {[ 1%positive := Q_unnamed ]}).
Proof. reflexivity. Qed.

Lemma Demo_query_a1 :
  (let '(q, h) := query (JStr "t") (mkHeap literals ∅) in
   params q [JRef 1%positive] h)
  = Some (PThis 1%positive, h_a1).
Proof. vm_compute. reflexivity. Qed.

Lemma Demo_wf_h0 : wf h0.
Proof. by apply (bool_decide_unpack _). Defined.

Lemma Demo_wf_h_plain : wf h_plain.
Proof. by apply (bool_decide_unpack _). Defined.

(** C1 on the query [Q0]. *)
Lemma queryFrom_toObject_roundtrip_witness :
  (∀ v : verb, Verb_from (verb_toObject v) = inr v) ∧
  ∃ q' h' Q',
    queryFrom (toObject Q0) h0 = (inr q', h') ∧
    queries h' !! q' = Some Q' ∧
    toObject Q' = toObject Q0 ∧
    _verbs Q' = [Push 5; Double] ∧
    _params Q' = JRef 1%positive ∧
    _table Q' = JStr "t".
Proof.
  assert (Hinv : ∀ v : verb, Verb_from (verb_toObject v) = inr v)
    by (intros []; reflexivity).
  destruct (queryFrom_toObject_roundtrip h0 Q0 Hinv)
    as (q' & h' & Q' & Hfrom & _ & Hq' & Hsame & _ & _ & _ & Hv & Hp & Ht & _).
  refine (conj Hinv _). exists q', h', Q'.
  exact (conj Hfrom (conj Hq' (conj Hsame
           (conj Hv (conj (Hp eq_refl) (Ht eq_refl)))))).
Defined.

(** C3 on [Q0]: an argument [0] is falsy, so the fold starts from the
    table of the catalog. *)
Lemma evaluate_left_fold_witness :
  operand_truthy (@OValue table (JNum 0)) = false ∧
  (evaluate h0 Q0 (OValue (JNum 0)) catalog).2
  = as_operand (foldl (fold_step h0 Q0 catalog) (catalog (JStr "t"))
                  [Push 5; Double]) ∧
  (evaluate h0 Q0 (OTable T) catalog).2
  = inr (OTable (mkTable [2; 4; 6; 10]%Z {[ "a" := JNum 1 ]})).
Proof.
  destruct (evaluate_left_fold h0 Q0 T catalog) as (Hfold & Hres & _).
  exact (conj eq_refl (conj (Hres (OValue (JNum 0)) eq_refl)
           (eq_trans Hfold eq_refl))).
Defined.

(** C4, as stated, fails on [query('t').params({a: 1})]: the table
    that [evaluate] returns is the one of the catalog, which does not
    carry the parameter [a]. *)
Lemma evaluate_empty_pipeline_not_annotated :
  _verbs Q_a1 = [] ∧
  queries h_a1 !! 1%positive = Some Q_a1 ∧
  catalog (_table Q_a1) = inr T ∧
  (evaluate h_a1 Q_a1 (OValue JNull) catalog).2 = inr (OTable T) ∧
  (evaluate h_a1 Q_a1 (OValue JNull) catalog).2
  ≠ inr (OTable (table_params T (objects h_a1) (_params Q_a1))).
Proof.
  split_and!; try reflexivity.
  intros Heq. vm_compute in Heq. discriminate.
Qed.

(** C4 (amended) on the same query. *)
Lemma evaluate_empty_pipeline_witness :
  _verbs Q_a1 = [] ∧
  (∀ t, evaluate h_a1 Q_a1 (OTable t) catalog = ([], inr (OTable t))) ∧
  evaluate h_a1 Q_a1 (OValue JNull) catalog
  = ([CallCatalog (JStr "t")], inr (OTable T)).
Proof.
  assert (Hv : _verbs Q_a1 = []) by reflexivity.
  destruct (evaluate_empty_pipeline h_a1 Q_a1 catalog Hv)
    as (Hsome & _ & Hnone & _).
  exact (conj Hv (conj Hsome (Hnone (OValue JNull) T eq_refl eq_refl))).
Defined.

(** C7, as stated, fails on [q.evaluate(0, catalog)]: an argument is
    supplied, and [evaluate] calls the catalog all the same, as it does
    for [q.evaluate('', catalog)] and [q.evaluate(false, catalog)]. *)
Lemma evaluate_resolves_supplied_falsy :
  supplied (@OValue table (JNum 0)) ∧
  catalog_calls (evaluate h0 Q0 (OValue (JNum 0)) catalog).1 = [JStr "t"] ∧
  catalog_calls (evaluate h0 Q0 (OValue (JStr "")) catalog).1 = [JStr "t"] ∧
  catalog_calls (evaluate h0 Q0 (OValue (JBool false)) catalog).1
  = [JStr "t"] ∧
  evaluate h0 Q0 (OValue (JNum 0)) catalog
  = evaluate h0 Q0 (OValue JUndefined) catalog ∧
  ¬ (catalog_calls (evaluate h0 Q0 (OValue (JNum 0)) catalog).1 ≠ []
     ↔ ¬ supplied (@OValue table (JNum 0))).
Proof.
  assert (Hs : supplied (@OValue table (JNum 0)))
    by (intros [Hu | Hn]; discriminate).
  split_and!; try reflexivity; [exact Hs|].
  intros [Hcalled _]. apply Hcalled; [|exact Hs].
  intros Hnone. discriminate Hnone.
Qed.

(** C6, as stated, fails on [query('')]: the table name is the empty
    string, and [toObject()] has no key [table]. *)
Lemma toObject_omits_empty_table_name :
  queries (query (JStr "") empty_heap).2 !! (query (JStr "") empty_heap).1
  = Some Q_unnamed ∧
  tableName Q_unnamed = JStr "" ∧
  ¬ ("table" ∈ dom (toObject Q_unnamed) ↔ present (_table Q_unnamed)).
Proof.
  split_and!; try reflexivity.
  intros [_ Hkey].
  assert (Hin : "table" ∈ dom (toObject Q_unnamed)).
  { apply Hkey. intros [Hu | Hn]; discriminate. }
  apply elem_of_dom in Hin. destruct Hin as [v Hv]. discriminate.
Qed.

(** C6 (amended) on the query [Q0]. *)
Lemma toObject_field_omission_witness :
  _params Q0 = JRef 1%positive ∧
  _table Q0 = JStr "t" ∧
  toObject Q0 !! "params" = Some (JRef 1%positive) ∧
  toObject Q0 !! "table" = Some (JStr "t").
Proof.
  destruct (toObject_field_omission Q0)
    as (_ & _ & _ & Hparams & _ & Htable & _).
  exact (conj eq_refl (conj eq_refl
           (conj (Hparams 1%positive eq_refl) (Htable "t" eq_refl)))).
Defined.

Lemma Demo_registered : registered prototype.
Proof. unfold prototype. repeat constructor. Defined.

(** C2 on the query [Q0] and the registered method [push]. *)
Lemma append_immutable_witness :
  registered prototype ∧
  prototype !! "push" = Some (verb_method push) ∧
  queries h0 !! 1%positive = Some Q0 ∧
  (∃ verb, verb_method push = verb_method verb ∧
     call_builder prototype "push" 1%positive [JNum 7] h0
     = Some (append Q0 (verb [JNum 7]) h0)) ∧
  (∀ verb, ∃ q2 h2,
     append Q0 verb h0 = (q2, h2) ∧
     q2 ≠ 1%positive ∧ queries h0 !! q2 = None ∧
     queries h2 !! q2
     = Some (mkQuery (_params Q0) (_verbs Q0 ++ [verb]) (_table Q0)) ∧
     objects h2 = objects h0 ∧
     ∃ Q', queries h2 !! 1%positive = Some Q' ∧
           length Q' = length Q0 ∧
           toObject Q' = toObject Q0 ∧
           observe_object (objects h2) (toObject Q')
           = observe_object (objects h0) (toObject Q0)).
Proof.
  assert (Hm : prototype !! "push" = Some (verb_method push))
    by reflexivity.
  assert (Hq : queries h0 !! 1%positive = Some Q0) by reflexivity.
  exact (conj Demo_registered (conj Hm (conj Hq
           (append_immutable h0 1%positive Q0 prototype "push" _ [JNum 7]
              Demo_registered Hm Hq)))).
Defined.

(** C5 on the query [Q0], whose parameters are [{a: 1}], merged with
    [{b: 2}]. *)
Lemma params_merge_witness :
  queries h0 !! 1%positive = Some Q0 ∧
  ∃ l h' merged,
    params 1%positive [JRef 3%positive] h0 = Some (PThis 1%positive, h') ∧
    objects h0 !! l = None ∧
    queries h' !! 1%positive
    = Some (mkQuery (JRef l) (_verbs Q0) (_table Q0)) ∧
    objects h' !! l = Some merged ∧
    merged !! "a" = Some (JNum 1) ∧
    merged !! "b" = Some (JNum 2).
Proof.
  assert (Hq : queries h0 !! 1%positive = Some Q0) by reflexivity.
  destruct (params_merge h0 1%positive Q0 (JRef 3%positive) [] Hq)
    as ((l & h' & merged & Hset & Hl & Hq' & Hm & Hnew & Hold & _) & _).
  refine (conj Hq _). exists l, h', merged.
  refine (conj Hset (conj Hl (conj Hq' (conj Hm (conj _ _))))).
  - exact (eq_trans (Hold "a" eq_refl) eq_refl).
  - exact (Hnew "b" (JNum 2) eq_refl).
Defined.

(** C9, as stated, fails on [query()]: after [params({})] the
    serialized form has the key [params], which it did not have. *)
Lemma params_empty_merge_adds_key :
  wf h_plain ∧
  queries h_plain !! 1%positive = Some Q_plain ∧
  objects h_plain !! 2%positive = Some ∅ ∧
  toObject Q_plain !! "params" = None ∧
  ¬ ∃ h' Q',
      params 1%positive [JRef 2%positive] h_plain
      = Some (PThis 1%positive, h') ∧
      queries h' !! 1%positive = Some Q' ∧
      observe_object (objects h') (toObject Q')
      = observe_object (objects h_plain) (toObject Q_plain).
Proof.
  split_and!; try reflexivity; [exact Demo_wf_h_plain|].
  intros (h' & Q' & Hset & Hq' & Hsame).
  vm_compute in Hset. injection Hset as <-.
  vm_compute in Hq'. injection Hq' as <-.
  apply (f_equal (lookup "params")) in Hsame.
  vm_compute in Hsame. discriminate.
Qed.

(** C9 (amended) on the query [Q0], which has parameters. *)
Lemma params_empty_merge_witness :
  wf h0 ∧
  queries h0 !! 1%positive = Some Q0 ∧
  objects h0 !! 2%positive = Some ∅ ∧
  ∃ h' Q',
    params 1%positive [JRef 2%positive] h0 = Some (PThis 1%positive, h') ∧
    queries h' !! 1%positive = Some Q' ∧
    _verbs Q' = _verbs Q0 ∧
    _table Q' = _table Q0 ∧
    observe (objects h') (_params Q') = observe (objects h0) (_params Q0) ∧
    observe_object (objects h') (toObject Q')
    = observe_object (objects h0) (toObject Q0).
Proof.
  assert (Hq : queries h0 !! 1%positive = Some Q0) by reflexivity.
  assert (Hle : objects h0 !! 2%positive = Some ∅) by reflexivity.
  destruct (params_empty_merge h0 1%positive Q0 2%positive []
              Demo_wf_h0 Hq Hle)
    as (h' & Q' & Hset & Hq' & Hv & Ht & _ & Hsame & _).
  refine (conj Demo_wf_h0 (conj Hq (conj Hle _))). exists h', Q'.
  destruct (Hsame 1%positive eq_refl) as [Hobs Hser].
  exact (conj Hset (conj Hq' (conj Hv (conj Ht (conj Hobs Hser))))).
Defined.

(** C10 on the query [Q0], the appended verb [Boom] and the mapping
    [{b: 2}]. *)
Lemma params_isolation_witness :
  wf h0 ∧
  queries h0 !! 1%positive = Some Q0 ∧
  ∃ q2 h1 Q2,
    append Q0 Boom h0 = (q2, h1) ∧
    queries h1 !! q2 = Some Q2 ∧
    q2 ≠ 1%positive ∧
    _params Q2 = _params Q0 ∧
    (∃ h2,
       params 1%positive [JRef 3%positive] h1 = Some (PThis 1%positive, h2) ∧
       queries h2 !! q2 = Some Q2 ∧
       observe (objects h2) (_params Q2) = VObject {[ "a" := JNum 1 ]} ∧
       observe_object (objects h2) (toObject Q2)
       = observe_object (objects h1) (toObject Q2)) ∧
    (∃ h2,
       params q2 [JRef 3%positive] h1 = Some (PThis q2, h2) ∧
       queries h2 !! 1%positive = Some Q0 ∧
       observe (objects h2) (_params Q0) = VObject {[ "a" := JNum 1 ]} ∧
       observe_object (objects h2) (toObject Q0)
       = observe_object (objects h1) (toObject Q0)).
Proof.
  assert (Hq : queries h0 !! 1%positive = Some Q0) by reflexivity.
  destruct (params_isolation h0 1%positive Q0 Boom (JRef 3%positive) []
              Demo_wf_h0 Hq)
    as (q2 & h1 & Q2 & Happ & Hq2 & Hne & Hshare & Hfst & Hsnd).
  refine (conj Demo_wf_h0 (conj Hq _)). exists q2, h1, Q2.
  refine (conj Happ (conj Hq2 (conj Hne (conj Hshare _)))).
  injection Happ as <- <-. injection Hq2 as <-.
  destruct Hfst as (l1 & h2 & Hset & _ & _ & _ & Hkeep & Hobs & Hser).
  destruct Hsnd as (l2 & h2' & Hset' & _ & _ & _ & Hkeep' & Hobs' & Hser').
  split.
  - exists h2. exact (conj Hset (conj Hkeep (conj Hobs Hser))).
  - exists h2'. exact (conj Hset' (conj Hkeep' (conj Hobs' Hser'))).
Defined.

End Instances.


(** ** The further properties on the small set of collaborators *)

Section MoreInstances.
Import Demo.

(** X1 on the empty object and on [bad_object]. *)
Lemma queryFrom_failure_witness :
  queryFrom ∅ h0 = (inl TypeError, h0) ∧
  queryFrom bad_object h0 = (inl (Failure "unknown verb"), h0).
Proof.
  split.
  - apply (proj2 (queryFrom_failure ∅ h0 TypeError h0)).
    split; [reflexivity|]. left. split; [reflexivity|].
    intros os Hos. discriminate Hos.
  - apply (proj2 (queryFrom_failure bad_object h0
                    (Failure "unknown verb") h0)).
    split; [reflexivity|]. right.
    exists [JArr [JStr "double"]], (JStr "x"), [JArr [JStr "boom"]].
    split; [reflexivity|]. split; [|reflexivity].
    constructor; [by exists Double|constructor].
Defined.

Lemma Demo_decode_Q0 :
  Forall2 (λ o v, Verb_from o = inr v ∧ verb_toObject v = o)
    [JArr [JStr "push"; JNum 5]; JArr [JStr "double"]] [Push 5; Double].
Proof. repeat constructor. Defined.

(** X2 on the serialized form of [Q0]. *)
Lemma queryFrom_success_witness :
  toObject Q0 !! "verbs"
  = Some (JArr [JArr [JStr "push"; JNum 5]; JArr [JStr "double"]]) ∧
  ∃ q' h' Q',
    queryFrom (toObject Q0) h0 = (inr q', h') ∧
    queries h' !! q' = Some Q' ∧
    _verbs Q' = [Push 5; Double] ∧
    _params Q' = JRef 1%positive ∧
    tableName Q' = JStr "t" ∧
    queries h' !! 1%positive = Some Q0.
Proof.
  assert (Hverbs : toObject Q0 !! "verbs"
    = Some (JArr [JArr [JStr "push"; JNum 5]; JArr [JStr "double"]]))
    by reflexivity.
  assert (Hall : Forall2 (λ o v, Verb_from o = inr v)
    [JArr [JStr "push"; JNum 5]; JArr [JStr "double"]] [Push 5; Double])
    by (repeat constructor).
  destruct (queryFrom_success (toObject Q0) h0 _ _ Hverbs Hall)
    as (q' & h' & Q' & Hfrom & _ & Hq' & Hv & _ & Hp & Ht & _ & Hold).
  refine (conj Hverbs _). exists q', h', Q'.
  exact (conj Hfrom (conj Hq' (conj Hv (conj Hp (conj Ht
           (Hold 1%positive Q0 eq_refl)))))).
Defined.

(** X3 on the serialized form of [Q0] with one more entry, which the
    round trip drops. *)
Lemma queryFrom_then_toObject_witness :
  ∃ q' h' Q',
    queryFrom (<[ "type" := JStr "Query" ]> (toObject Q0)) h0 = (inr q', h') ∧
    queries h' !! q' = Some Q' ∧
    toObject Q' ⊆ <[ "type" := JStr "Query" ]> (toObject Q0) ∧
    toObject Q' !! "type" = None.
Proof.
  assert (Hverbs : <[ "type" := JStr "Query" ]> (toObject Q0) !! "verbs"
    = Some (JArr [JArr [JStr "push"; JNum 5]; JArr [JStr "double"]]))
    by reflexivity.
  destruct (queryFrom_then_toObject
              (<[ "type" := JStr "Query" ]> (toObject Q0)) h0 _ _
              Hverbs Demo_decode_Q0)
    as (q' & h' & Q' & Hfrom & Hq' & Heq & Hsub).
  exists q', h', Q'.
  refine (conj Hfrom (conj Hq' (conj Hsub _))).
  rewrite Heq. reflexivity.
Defined.

(** X4 on [Q0] and the chain [.push(7).double()]. *)
Lemma call_chain_appends_witness :
  queries h0 !! 1%positive = Some Q0 ∧
  ∃ q' h' Q',
    call_chain prototype [("push", [JNum 7]); ("double", [])] 1%positive h0
    = Some (q', h') ∧
    queries h' !! q' = Some Q' ∧
    _verbs Q' = [Push 5; Double; Push 7; Double] ∧
    length Q' = 4%nat ∧
    queries h' !! 1%positive = Some Q0.
Proof.
  assert (Hq : queries h0 !! 1%positive = Some Q0) by reflexivity.
  assert (Hcalls : Forall2
    (λ c v, ∃ ctor, prototype !! c.1 = Some (verb_method ctor) ∧ v = ctor c.2)
    [("push", [JNum 7]); ("double", [])] [Push 7; Double]).
  { constructor; [by exists push|].
    constructor; [by exists (λ _, Double)|constructor]. }
  destruct (call_chain_appends prototype _ _ h0 1%positive Q0 Hcalls Hq)
    as (q' & h' & Q' & Hchain & Hq' & Hv & _ & _ & Hlen & _ & Hold).
  refine (conj Hq _). exists q', h', Q'.
  exact (conj Hchain (conj Hq' (conj Hv (conj Hlen (Hold _ _ Hq))))).
Defined.

(** X5 on [Q0] and the verbs [Double] and [Boom]. *)
Lemma append_branches_witness :
  queries h0 !! 1%positive = Some Q0 ∧
  ∃ q2 h2 q3 h3,
    append Q0 Double h0 = (q2, h2) ∧
    append Q0 Boom h2 = (q3, h3) ∧
    q2 ≠ q3 ∧
    queries h3 !! 1%positive = Some Q0 ∧
    (_verbs <$> queries h3 !! q2) = Some [Push 5; Double; Double] ∧
    (_verbs <$> queries h3 !! q3) = Some [Push 5; Double; Boom].
Proof.
  assert (Hq : queries h0 !! 1%positive = Some Q0) by reflexivity.
  destruct (append_branches h0 1%positive Q0 Double Boom Hq)
    as (q2 & h2 & q3 & h3 & H2 & _ & H3 & _ & _ & Hne & Hkeep & Hq2 & Hq3 & _).
  refine (conj Hq _). exists q2, h2, q3, h3.
  refine (conj H2 (conj H3 (conj Hne (conj Hkeep (conj _ _))))).
  - exact (f_equal (fmap _verbs) Hq2).
  - exact (f_equal (fmap _verbs) Hq3).
Defined.

(** X6 on the known verb [push], appended to [Q0] from any receiver. *)
Lemma internal_handler_appends_witness :
  known !! "push" = Some push ∧
  queries h0 !! 1%positive = Some Q0 ∧
  call_handler (install_handlers known ∅) "__push"
    9%positive 1%positive [JNum 7] h0
  = Some (append Q0 (Push 7) h0) ∧
  install_handlers known ∅ !! "push" = None.
Proof.
  assert (Hk : known !! "push" = Some push) by reflexivity.
  assert (Hq : queries h0 !! 1%positive = Some Q0) by reflexivity.
  destruct (internal_handler_appends known ∅ prototype "push" push
              9%positive 1%positive Q0 [JNum 7] h0 Hk Hq)
    as (_ & Hcall & _ & Hother).
  refine (conj Hk (conj Hq (conj Hcall _))).
  rewrite Hother; [reflexivity|].
  intros name' _ Heq. discriminate Heq.
Defined.

(** X7 on [Q0]. *)
Lemma toStringTag_roundtrip_witness :
  (∀ v : verb, Verb_from (verb_toObject v) = inr v) ∧
  toStringTag number_to_string (Some Q0) = "Query: 2 verbs on 't'" ∧
  ∃ q' h' Q',
    queryFrom (toObject Q0) h0 = (inr q', h') ∧
    queries h' !! q' = Some Q' ∧
    toStringTag number_to_string (Some Q') = "Query: 2 verbs on 't'".
Proof.
  assert (Hinv : ∀ v : verb, Verb_from (verb_toObject v) = inr v)
    by (intros []; reflexivity).
  destruct (toStringTag_roundtrip number_to_string h0 Q0 Hinv)
    as (_ & Hstr & _ & q' & h' & Q' & Hfrom & Hq' & Htag).
  refine (conj Hinv (conj (Hstr "t" eq_refl) _)). exists q', h', Q'.
  exact (conj Hfrom (conj Hq' (eq_trans Htag (Hstr "t" eq_refl)))).
Defined.



(** X10 on [Q0] and its two halves. *)
Lemma evaluate_split_witness :
  _verbs Q0 = _verbs Q0_head ++ _verbs Q0_tail ∧
  evaluate h0 Q0 (OValue JNull) catalog
  = (t' ← evaluate h0 Q0_head (OValue JNull) catalog;
     evaluate h0 Q0_tail t' catalog).
Proof.
  assert (Hvs : _verbs Q0 = _verbs Q0_head ++ _verbs Q0_tail)
    by reflexivity.
  exact (conj Hvs (evaluate_split h0 Q0 Q0_head Q0_tail (OValue JNull)
                     catalog Hvs eq_refl eq_refl eq_refl)).
Defined.

(** X11 on [query()] and the argument [undefined]. *)
Lemma params_set_absent_witness :
  queries h_plain !! 1%positive = Some Q_plain ∧
  absent JUndefined ∧
  ∃ l h',
    params 1%positive [JUndefined] h_plain = Some (PThis 1%positive, h') ∧
    queries h' !! 1%positive = Some (mkQuery (JRef l) [] JUndefined) ∧
    observe (objects h') (JRef l) = VObject ∅.
Proof.
  assert (Hq : queries h_plain !! 1%positive = Some Q_plain) by reflexivity.
  assert (Ha : absent JUndefined) by (left; reflexivity).
  destruct (params_set_absent h_plain 1%positive Q_plain JUndefined [] Hq Ha)
    as (l & h' & Hset & _ & _ & Hq' & _ & Hempty).
  refine (conj Hq (conj Ha _)). exists l, h'.
  exact (conj Hset (conj Hq' (Hempty (or_intror eq_refl)))).
Defined.

(** X12 on [Q0] and the mapping [{b: 2}]. *)
Lemma params_getter_snapshot_witness :
  wf h0 ∧
  queries h0 !! 1%positive = Some Q0 ∧
  ∃ h' v',
    params 1%positive [] h0 = Some (PValue (JRef 1%positive), h0) ∧
    params 1%positive [JRef 3%positive] h0 = Some (PThis 1%positive, h') ∧
    params 1%positive [] h' = Some (PValue v', h') ∧
    observe (objects h') (JRef 1%positive) = VObject {[ "a" := JNum 1 ]} ∧
    v' ≠ JRef 1%positive.
Proof.
  assert (Hq : queries h0 !! 1%positive = Some Q0) by reflexivity.
  destruct (params_getter_snapshot h0 1%positive Q0 (JRef 3%positive) []
              Demo_wf_h0 Hq)
    as (h' & v' & Hget & Hset & Hget' & Hobs & Hne).
  refine (conj Demo_wf_h0 (conj Hq _)). exists h', v'.
  exact (conj Hget (conj Hset (conj Hget' (conj Hobs Hne)))).
Defined.

(** X13 on [Q0]: merging [{a: 1}] twice is merging it once. *)
Lemma params_two_merges_witness :
  queries h0 !! 1%positive = Some Q0 ∧
  objects h0 !! 1%positive = Some ({[ "a" := JNum 1 ]} ∪ {[ "a" := JNum 1 ]}) ∧
  ∃ h1 h2 v h3 v',
    params 1%positive [JRef 1%positive] h0 = Some (PThis 1%positive, h1) ∧
    params 1%positive [JRef 1%positive] h1 = Some (PThis 1%positive, h2) ∧
    params 1%positive [] h2 = Some (PValue v, h2) ∧
    params 1%positive [JRef 1%positive] h0 = Some (PThis 1%positive, h3) ∧
    params 1%positive [] h3 = Some (PValue v', h3) ∧
    observe (objects h2) v = observe (objects h3) v'.
Proof.
  assert (Hq : queries h0 !! 1%positive = Some Q0) by reflexivity.
  assert (Ha : objects h0 !! 1%positive = Some {[ "a" := JNum 1 ]})
    by reflexivity.
  assert (Hab : objects h0 !! 1%positive
    = Some ({[ "a" := JNum 1 ]} ∪ {[ "a" := JNum 1 ]})) by reflexivity.
  destruct (params_two_merges h0 1%positive Q0 1%positive 1%positive
              1%positive _ _ Hq Ha Ha Hab)
    as (h1 & h2 & v & h3 & v' & H1 & H2 & H3 & H4 & H5 & Hsame & _).
  refine (conj Hq (conj Hab _)). exists h1, h2, v, h3, v'.
  exact (conj H1 (conj H2 (conj H3 (conj H4 (conj H5 Hsame))))).
Defined.

(** X15 on [Q0] and the mapping [{b: 2}]. *)
Lemma serialized_before_and_after_params_witness :
  wf h0 ∧
  queries h0 !! 1%positive = Some Q0 ∧
  ∃ l h' Q',
    params 1%positive [JRef 3%positive] h0 = Some (PThis 1%positive, h') ∧
    queries h' !! 1%positive = Some Q' ∧
    observe_object (objects h') (toObject Q0)
    = observe_object (objects h0) (toObject Q0) ∧
    toObject Q' = <[ "params" := JRef l ]> (toObject Q0) ∧
    observe (objects h') (JRef l)
    = VObject {[ "a" := JNum 1; "b" := JNum 2 ]}.
Proof.
  assert (Hq : queries h0 !! 1%positive = Some Q0) by reflexivity.
  destruct (serialized_before_and_after_params "Query" h0 1%positive Q0
              (JRef 3%positive) [] Demo_wf_h0 Hq)
    as (l & h' & Q' & Hset & Hq' & _ & Hsame & Hobj & _ & Hobs).
  refine (conj Demo_wf_h0 (conj Hq _)). exists l, h', Q'.
  exact (conj Hset (conj Hq' (conj Hsame (conj Hobj (eq_trans Hobs eq_refl))))).
Defined.

(** X17 on the heap [h0]. *)
Lemma wf_preserved_witness :
  wf h0 ∧
  wf (query (JStr "t") h0).2 ∧
  wf (append Q0 Boom h0).2 ∧
  wf (queryFrom (toObject Q0) h0).2.
Proof.
  destruct (wf_preserved h0 Demo_wf_h0) as (Hquery & Happend & _ & Hfrom).
  refine (conj Demo_wf_h0 (conj (Hquery (JStr "t") I)
            (conj (Happend 1%positive Q0 Boom eq_refl) _))).
  apply Hfrom; [by eexists|exact I].
Defined.

End MoreInstances.
